(** * Memory and reasoning core of the AI agent (src/main.js, classes
    [Memory] and [ReasoningEngine]), shallowly embedded in Rocq.

    Modelling conventions.
    - JavaScript numbers used as scores, importances and confidences are
      rationals [Q]; times ([Date.now()]) are integers [Z] of milliseconds,
      passed to each operation as its argument [now].
    - JavaScript strings are Rocq byte strings; [toLowerCase] and the
      case-insensitive regular-expression flag act on ASCII letters.
    - The values a caller may hand to the memory ([item], [event], [value])
      are the JavaScript values of type [jsval].
    - A JavaScript [Map] is an association list kept in insertion order:
      [set] on an existing key replaces the value in place, on a new key it
      appends.
    - [generateId()] (time plus [Math.random]) is a fresh identifier drawn
      from a counter kept in the state.
    - An operation that throws returns [Err]; a throw happens before any
      mutation in the operations modelled here, so the state is unchanged. *)

From Stdlib Require Import String Ascii List Bool Arith Lia ZArith QArith
  Qminmax Qround Sorted DecimalString.
Import ListNotations.
Open Scope string_scope.

(* ------------------------------------------------------------------ *)
(** ** JavaScript primitives *)
Module JS.

(** The JavaScript values the memory receives as payloads. *)
Inductive jsval :=
| JStr (s : string)
| JNum (n : Z)
| JObj                       (* a plain object such as [{type: ...}] *)
| JNull
| JUndef.

(** Outcome of a call that may throw. *)
Inductive result (A : Type) :=
| Ok (a : A)
| Err (msg : string).
Arguments Ok {A} a.
Arguments Err {A} msg.

Definition lower_ascii (c : ascii) : ascii :=
  let n := nat_of_ascii c in
  if ((65 <=? n) && (n <=? 90))%nat then ascii_of_nat (n + 32)%nat else c.

Definition upper_ascii (c : ascii) : ascii :=
  let n := nat_of_ascii c in
  if ((97 <=? n) && (n <=? 122))%nat then ascii_of_nat (n - 32)%nat else c.

(** [String.prototype.toLowerCase]. *)
Fixpoint toLowerCase (s : string) : string :=
  match s with
  | EmptyString => EmptyString
  | String c s' => String (lower_ascii c) (toLowerCase s')
  end.

(** [s.includes(t)]: [t] occurs in [s]. *)
Definition includes (s t : string) : bool :=
  match index 0 t s with Some _ => true | None => false end.

(** "[s] contains [t] as a substring", read from the specification's
    words, against which [includes] is compared. *)
Definition contains_substring (s t : string) : Prop :=
  exists pre post, s = (pre ++ t ++ post)%string.

(** [s.split(' ')]: cut at every single space; always at least one piece. *)
Fixpoint split_space_aux (cur : string) (s : string) : list string :=
  match s with
  | EmptyString => [cur]
  | String c s' =>
      if Ascii.eqb c " "%char then cur :: split_space_aux EmptyString s'
      else split_space_aux (cur ++ String c EmptyString) s'
  end.
Definition split_space (s : string) : list string := split_space_aux EmptyString s.

(** [String(n)] for an integer number. *)
Definition Z_to_string (z : Z) : string :=
  NilZero.string_of_int (Z.to_int z).

(** [ToString(v)], as used by template literals. *)
Definition ToString (v : jsval) : string :=
  match v with
  | JStr s => s
  | JNum n => Z_to_string n
  | JObj => "[object Object]"
  | JNull => "null"
  | JUndef => "undefined"
  end.

(** The string [Array.prototype.join] uses for one element
    ([null] and [undefined] print as the empty string). *)
Definition join_elem (v : jsval) : string :=
  match v with JNull | JUndef => "" | _ => ToString v end.

Fixpoint join (sep : string) (l : list string) : string :=
  match l with
  | [] => ""
  | [x] => x
  | x :: l' => x ++ sep ++ join sep l'
  end.

(** [a < b] on numbers, as a boolean. *)
Definition Qltb (a b : Q) : bool := negb (Qle_bool b a).

(** [arr.length] or [map.size], as a number. *)
Definition len_Q {A} (l : list A) : Q := inject_Z (Z.of_nat (List.length l)).

(** [ToIntegerOrInfinity] on a finite number: truncation toward zero. *)
Definition trunc (x : Q) : Z := if Qle_bool 0 x then Qfloor x else (- Qfloor (- x))%Z.

(** [arr.slice(0, end)]: a negative [end] counts from the end of the
    array, and the result stops at the array's end. *)
Definition slice_to {A} (l : list A) (end_ : Q) : list A :=
  let r := trunc end_ in
  if (r <? 0)%Z then firstn (Z.to_nat (Z.of_nat (List.length l) + r)) l
  else firstn (Z.to_nat r) l.

(** [Array.prototype.sort(cmp)]: for a consistent comparator the result is
    the stable sort, computed here by insertion. *)
Section Sort.
Variable A : Type.
Variable cmp : A -> A -> Q.

Fixpoint insert_by (x : A) (l : list A) : list A :=
  match l with
  | [] => [x]
  | y :: l' => if Qltb 0 (cmp x y) then y :: insert_by x l' else x :: y :: l'
  end.

Fixpoint sort_by (l : list A) : list A :=
  match l with
  | [] => []
  | x :: l' => insert_by x (sort_by l')
  end.
End Sort.
Arguments insert_by {A} cmp x l.
Arguments sort_by {A} cmp l.

(** [Map] as an association list in insertion order. *)
Section AList.
Variable V : Type.

Fixpoint map_get (k : string) (m : list (string * V)) : option V :=
  match m with
  | [] => None
  | (k', v) :: m' => if String.eqb k k' then Some v else map_get k m'
  end.

Fixpoint map_set (k : string) (v : V) (m : list (string * V)) : list (string * V) :=
  match m with
  | [] => [(k, v)]
  | (k', v') :: m' =>
      if String.eqb k k' then (k', v) :: m' else (k', v') :: map_set k v m'
  end.

Fixpoint map_delete (k : string) (m : list (string * V)) : list (string * V) :=
  match m with
  | [] => []
  | (k', v') :: m' => if String.eqb k k' then m' else (k', v') :: map_delete k m'
  end.

Definition map_has (k : string) (m : list (string * V)) : bool :=
  match map_get k m with Some _ => true | None => false end.
End AList.
Arguments map_get {V} k m.
Arguments map_set {V} k v m.
Arguments map_delete {V} k m.
Arguments map_has {V} k m.

End JS.
Import JS.

(* ------------------------------------------------------------------ *)
(** ** Scoring: [Memory.calculateRelevance] and [Memory.calculateImportance] *)
Module Score.

(** [Memory.calculateRelevance(query, content)]. *)
Definition calculateRelevance (query content : jsval) : Q :=
  match query, content with
  | JStr q, JStr c =>
      let queryTokens := split_space (toLowerCase q) in
      let contentTokens := split_space (toLowerCase c) in
      let matches :=
        List.length (filter (fun token =>
          existsb (fun cToken => includes cToken token || includes token cToken)
                  contentTokens) queryTokens) in
      let totalTokens := List.length queryTokens in
      let similarity := inject_Z (Z.of_nat matches) / inject_Z (Z.of_nat totalTokens) in
      if includes (toLowerCase c) (toLowerCase q)
      then Qmin (similarity + (1#2)) 1
      else similarity
  | _, _ => 0
  end.

Definition importantKeywords : list string :=
  ["quan trọng"; "cần nhớ"; "important"; "remember"; "critical"].
Definition emotionalWords : list string :=
  ["yêu"; "ghét"; "tuyệt vời"; "tệ hại"; "love"; "hate"].

(** [Memory.calculateImportance(content)]. *)
Definition calculateImportance (content : jsval) : Q :=
  let importance :=
    match content with
    | JStr s =>
        let i0 := 1#2 in
        let i1 := if existsb (fun k => includes (toLowerCase s) k) importantKeywords
                  then i0 + (3#10) else i0 in
        let i2 := if (100 <? String.length s)%nat then i1 + (1#10) else i1 in
        if existsb (fun w => includes (toLowerCase s) w) emotionalWords
        then i2 + (2#10) else i2
    | _ => 1#2
    end in
  Qmin importance 1.

End Score.
Import Score.

(* ------------------------------------------------------------------ *)
(** ** [class Memory] *)
Module Mem.

(** Short-term item built by [addToShortTerm]. *)
Record stItem := mkSt {
  st_content : jsval; st_timestamp : Z; st_importance : Q; st_id : string }.

(** Long-term item built by [addToLongTerm]. *)
Record ltItem := mkLt {
  lt_content : jsval; lt_importance : Q; lt_timestamp : Z;
  lt_accessCount : nat; lt_lastAccess : Z; lt_consolidated : bool }.

(** [getCurrentContext()]. *)
Record context := mkContext {
  recentMemories : list stItem; ctx_timestamp : Z; activeTopics : list string }.

(** [analyzeEmotionalContext()]: each flag is 0 or 1. *)
Record emotions := mkEmotions { happy : nat; sad : nat; angry : nat; surprised : nat }.

(** Episode built by [addEpisodicMemory]. *)
Record episode := mkEpisode {
  ep_event : jsval; ep_timestamp : Z; ep_context : context;
  ep_emotions : emotions; ep_importance : Q; ep_id : string }.

(** The [config] argument of the constructor; [None] is an absent field,
    a capacity any number. *)
Record config := mkConfig {
  cfg_shortTermCapacity : option Q;
  cfg_longTermCapacity : option Q;
  cfg_episodicCapacity : option Q }.

(** The fields of a [Memory] object that the operations read or write
    ([semantic] and [procedural] are never touched by them). *)
Record Memory := mkMemory {
  shortTermCapacity : Q; longTermCapacity : Q; episodicCapacity : Q;
  shortTerm : list stItem;
  longTerm : list (string * ltItem);
  episodic : list episode;
  memoryWeights : list (string * Q);
  accessCount : list (string * nat);
  lastAccess : list (string * Z);
  decayRate : Q; consolidationThreshold : nat;
  idCounter : nat }.

Definition set_shortTerm (m : Memory) (x : list stItem) : Memory :=
  mkMemory m.(shortTermCapacity) m.(longTermCapacity) m.(episodicCapacity)
    x m.(longTerm) m.(episodic) m.(memoryWeights) m.(accessCount) m.(lastAccess)
    m.(decayRate) m.(consolidationThreshold) m.(idCounter).
Definition set_longTerm (m : Memory) (x : list (string * ltItem)) : Memory :=
  mkMemory m.(shortTermCapacity) m.(longTermCapacity) m.(episodicCapacity)
    m.(shortTerm) x m.(episodic) m.(memoryWeights) m.(accessCount) m.(lastAccess)
    m.(decayRate) m.(consolidationThreshold) m.(idCounter).
Definition set_episodic (m : Memory) (x : list episode) : Memory :=
  mkMemory m.(shortTermCapacity) m.(longTermCapacity) m.(episodicCapacity)
    m.(shortTerm) m.(longTerm) x m.(memoryWeights) m.(accessCount) m.(lastAccess)
    m.(decayRate) m.(consolidationThreshold) m.(idCounter).
Definition set_memoryWeights (m : Memory) (x : list (string * Q)) : Memory :=
  mkMemory m.(shortTermCapacity) m.(longTermCapacity) m.(episodicCapacity)
    m.(shortTerm) m.(longTerm) m.(episodic) x m.(accessCount) m.(lastAccess)
    m.(decayRate) m.(consolidationThreshold) m.(idCounter).
Definition set_access (m : Memory) (ac : list (string * nat)) (la : list (string * Z)) : Memory :=
  mkMemory m.(shortTermCapacity) m.(longTermCapacity) m.(episodicCapacity)
    m.(shortTerm) m.(longTerm) m.(episodic) m.(memoryWeights) ac la
    m.(decayRate) m.(consolidationThreshold) m.(idCounter).

(** [config.x || d]: an absent field and [0] both fall back to [d]. *)
Definition or_default (o : option Q) (d : Q) : Q :=
  match o with Some c => if Qeq_bool c 0 then d else c | None => d end.

(** [new Memory(config)]. *)
Definition new_Memory (config : config) : Memory :=
  mkMemory (or_default config.(cfg_shortTermCapacity) 10)
           (or_default config.(cfg_longTermCapacity) 1000)
           (or_default config.(cfg_episodicCapacity) 500)
           [] [] [] [] [] [] (1#10) 5 0.

(** [generateId()]: a fresh identifier. *)
Definition generateId (m : Memory) : string * Memory :=
  ("id" ++ NilZero.string_of_uint (Nat.to_uint m.(idCounter)),
   mkMemory m.(shortTermCapacity) m.(longTermCapacity) m.(episodicCapacity)
     m.(shortTerm) m.(longTerm) m.(episodic) m.(memoryWeights) m.(accessCount)
     m.(lastAccess) m.(decayRate) m.(consolidationThreshold) (S m.(idCounter))).

(** The four deletions [manageLongTermCapacity] and [applyDecay] perform. *)
Definition delete_key (m : Memory) (key : string) : Memory :=
  set_access (set_memoryWeights (set_longTerm m (map_delete key m.(longTerm)))
                                (map_delete key m.(memoryWeights)))
             (map_delete key m.(accessCount)) (map_delete key m.(lastAccess)).

(** The comparator of [manageLongTermCapacity]. *)
Definition capacity_cmp (a b : string * ltItem) : Q :=
  let importanceScore := (snd a).(lt_importance) - (snd b).(lt_importance) in
  let accessScore := inject_Z (Z.of_nat (snd a).(lt_accessCount))
                     - inject_Z (Z.of_nat (snd b).(lt_accessCount)) in
  let timeScore := inject_Z ((snd a).(lt_lastAccess) - (snd b).(lt_lastAccess)) in
  importanceScore + accessScore * (1#10) + timeScore * (1#1000).

(** [manageLongTermCapacity()]. *)
Definition manageLongTermCapacity (m : Memory) : Memory :=
  if Qle_bool (len_Q m.(longTerm)) m.(longTermCapacity) then m
  else
    let itemsByImportance := sort_by capacity_cmp m.(longTerm) in
    let toRemove := slice_to itemsByImportance
                      (len_Q m.(longTerm) - m.(longTermCapacity)) in
    fold_left (fun m '(key, _) => delete_key m key) toRemove m.

(** [addToLongTerm(key, value, importance)]. *)
Definition addToLongTerm (m : Memory) (key : string) (value : jsval)
    (importance : Q) (now : Z) : Memory * string :=
  let memoryItem := mkLt value importance now 0 now false in
  let m1 := set_longTerm m (map_set key memoryItem m.(longTerm)) in
  let m2 := set_memoryWeights m1 (map_set key importance m1.(memoryWeights)) in
  (manageLongTermCapacity m2, key).

Definition mark_consolidated (it : ltItem) : ltItem :=
  mkLt it.(lt_content) it.(lt_importance) it.(lt_timestamp)
       it.(lt_accessCount) it.(lt_lastAccess) true.

(** [consolidateToLongTerm(shortTermItem)]. *)
Definition consolidateToLongTerm (m : Memory) (item : stItem) (now : Z) : Memory :=
  let key := "consolidated_" ++ item.(st_id) in
  let m1 := fst (addToLongTerm m key item.(st_content) item.(st_importance) now) in
  match map_get key m1.(longTerm) with
  | Some it => set_longTerm m1 (map_set key (mark_consolidated it) m1.(longTerm))
  | None => m1
  end.

(** [addToShortTerm(item)]. *)
Definition addToShortTerm (m : Memory) (item : jsval) (now : Z) : Memory * string :=
  let (id, m0) := generateId m in
  let memoryItem := mkSt item now (calculateImportance item) id in
  let st := (m0.(shortTerm) ++ [memoryItem])%list in
  if Qltb m0.(shortTermCapacity) (len_Q st) then
    match st with
    | removed :: rest =>
        let m1 := set_shortTerm m0 rest in
        if Qltb (7#10) removed.(st_importance)
        then (consolidateToLongTerm m1 removed now, id)
        else (m1, id)
    | [] => (set_shortTerm m0 st, id)
    end
  else (set_shortTerm m0 st, id).

(** [arr.slice(-n)]. *)
Definition last_n {A} (n : nat) (l : list A) : list A :=
  skipn (List.length l - n) l.

Definition topicKeywords : list (string * list string) :=
  [("technology", ["công nghệ"; "ai"; "robot"; "computer"; "technology"]);
   ("health", ["sức khỏe"; "bệnh"; "thuốc"; "health"; "medicine"]);
   ("education", ["học"; "giáo dục"; "trường"; "education"; "school"]);
   ("entertainment", ["phim"; "nhạc"; "game"; "movie"; "music"])].

(** [getActiveTopics()]. *)
Definition getActiveTopics (m : Memory) : list string :=
  let recentContent :=
    join " " (map (fun it => join_elem it.(st_content)) (last_n 5 m.(shortTerm))) in
  map fst (filter (fun '(_, keywords) =>
    existsb (fun k => includes (toLowerCase recentContent) k) keywords) topicKeywords).

(** [getCurrentContext()]. *)
Definition getCurrentContext (m : Memory) (now : Z) : context :=
  mkContext (last_n 3 m.(shortTerm)) now (getActiveTopics m).

Definition emotionalKeywords : list (list string) :=
  [["vui"; "hạnh phúc"; "vui vẻ"; "happy"; "joy"; "excited"];
   ["buồn"; "khóc"; "sad"; "cry"; "depressed"];
   ["tức giận"; "tức"; "angry"; "mad"; "furious"];
   ["ngạc nhiên"; "surprised"; "amazed"; "shocked"]].

(** [analyzeEmotionalContext(content)]: [content.toLowerCase()] throws a
    [TypeError] when [content] is not a string. *)
Definition analyzeEmotionalContext (content : jsval) : result emotions :=
  match content with
  | JStr s =>
      let flag ks := if existsb (fun k => includes (toLowerCase s) k) ks then 1%nat else 0%nat in
      match emotionalKeywords with
      | [h; sd; a; su] => Ok (mkEmotions (flag h) (flag sd) (flag a) (flag su))
      | _ => Ok (mkEmotions 0 0 0 0)
      end
  | _ => Err "TypeError: content.toLowerCase is not a function"
  end.

(** [addEpisodicMemory(event)]. *)
Definition addEpisodicMemory (m : Memory) (event : jsval) (now : Z)
    : result (Memory * string) :=
  let context := getCurrentContext m now in
  match analyzeEmotionalContext event with
  | Err e => Err e
  | Ok emotions =>
      let importance := calculateImportance event in
      let (id, m0) := generateId m in
      let episode := mkEpisode event now context emotions importance id in
      let eps := (m0.(episodic) ++ [episode])%list in
      if Qltb m0.(episodicCapacity) (len_Q eps)
      then Ok (set_episodic m0 (tl eps), id)
      else Ok (set_episodic m0 eps, id)
  end.

(** One entry of the array [recall] returns: [{...item, relevance, type}]
    (plus [id] for long-term entries). An episode has no [content] field,
    so its [content] reads as [undefined]. *)
Record recalled := mkRecalled {
  r_id : string; r_content : jsval; r_importance : Q;
  r_relevance : Q; r_type : string }.

(** [searchShortTerm(query)]. *)
Definition searchShortTerm (m : Memory) (query : jsval) : list recalled :=
  filter (fun r => Qltb (1#10) r.(r_relevance))
    (map (fun it => mkRecalled it.(st_id) it.(st_content) it.(st_importance)
                      (calculateRelevance query it.(st_content)) "shortterm")
         m.(shortTerm)).

(** [searchLongTerm(query)]. *)
Definition searchLongTerm (m : Memory) (query : jsval) : list recalled :=
  flat_map (fun '(key, it) =>
    let relevance := calculateRelevance query it.(lt_content) in
    if Qltb (1#10) relevance
    then [mkRecalled key it.(lt_content) it.(lt_importance) relevance "longterm"]
    else []) m.(longTerm).

(** [searchEpisodic(query)]. *)
Definition searchEpisodic (m : Memory) (query : jsval) : list recalled :=
  filter (fun r => Qltb (1#10) r.(r_relevance))
    (map (fun ep => mkRecalled ep.(ep_id) JUndef ep.(ep_importance)
                      (calculateRelevance query ep.(ep_event)) "episodic")
         m.(episodic)).

(** [updateAccess(id)]. *)
Definition updateAccess (m : Memory) (id : string) (now : Z) : Memory :=
  let count := match map_get id m.(accessCount) with Some c => c | None => 0%nat end in
  let m1 := set_access m (map_set id (S count) m.(accessCount))
                         (map_set id now m.(lastAccess)) in
  if (m1.(consolidationThreshold) <? count)%nat then
    let currentWeight :=
      match map_get id m1.(memoryWeights) with
      | Some w => if Qeq_bool w 0 then 1#2 else w     (* [get(id) || 0.5] *)
      | None => 1#2
      end in
    set_memoryWeights m1 (map_set id (Qmin (currentWeight + (1#10)) 1) m1.(memoryWeights))
  else m1.

Definition relevance_cmp (a b : recalled) : Q := b.(r_relevance) - a.(r_relevance).

(** [recall(query, memoryType)]. *)
Definition recall (m : Memory) (query : jsval) (memoryType : string) (now : Z)
    : Memory * list recalled :=
  let all := String.eqb memoryType "all" in
  let results :=
    ((if all || String.eqb memoryType "shortterm" then searchShortTerm m query else [])
     ++ (if all || String.eqb memoryType "longterm" then searchLongTerm m query else [])
     ++ (if all || String.eqb memoryType "episodic" then searchEpisodic m query else []))%list in
  let sorted := sort_by relevance_cmp results in
  (fold_left (fun m r => updateAccess m r.(r_id) now) sorted m, sorted).

Definition decayThreshold : Z := 24 * 60 * 60 * 1000.

(** [applyDecay()], for a given [Math.exp]. The loop visits each entry
    once and touches only that entry's key, so a fold over the entries
    present at the start is the live iteration of the [Map]. *)
Section Decay.
Variable Math_exp : Q -> Q.

Definition decay_entry (now : Z) (m : Memory) (entry : string * ltItem) : Memory :=
  let (key, item) := entry in
  let timeSinceAccess := (now - item.(lt_lastAccess))%Z in
  if (decayThreshold <? timeSinceAccess)%Z then
    let decayFactor := Math_exp (- (m.(decayRate)
                          * (inject_Z timeSinceAccess / inject_Z decayThreshold))) in
    let importance := item.(lt_importance) * decayFactor in
    if Qltb importance (1#10) && negb item.(lt_consolidated)
    then delete_key m key
    else set_longTerm m (map_set key
           (mkLt item.(lt_content) importance item.(lt_timestamp)
                 item.(lt_accessCount) item.(lt_lastAccess) item.(lt_consolidated))
           m.(longTerm))
  else m.

Definition applyDecay (m : Memory) (now : Z) : Memory :=
  fold_left (decay_entry now) m.(longTerm) m.
End Decay.

End Mem.

(* ------------------------------------------------------------------ *)
(** ** Regular expressions built from rule templates *)
Module Re.

(** A template such as ["if {A} then {B}"], cut as [pattern.replace(/\{[^}]+\}/g, ...)]
    cuts it: a placeholder is a ['{'], one or more characters other than
    ['}'], and the first ['}'] after them. *)
Inductive seg := Lit (c : ascii) | Hole (name : string).

(** The characters before the first ['}'] and what follows that ['}']. *)
Fixpoint read_name (s : string) : option (string * string) :=
  match s with
  | EmptyString => None
  | String c s' =>
      if Ascii.eqb c "}"%char then Some (EmptyString, s')
      else match read_name s' with
           | Some (n, rest) => Some (String c n, rest)
           | None => None
           end
  end.

Fixpoint parse_aux (fuel : nat) (s : string) : list seg :=
  match fuel with
  | O => []
  | S f =>
      match s with
      | EmptyString => []
      | String c s' =>
          if Ascii.eqb c "{"%char then
            match read_name s' with
            | Some (String n0 n, rest) => Hole (String n0 n) :: parse_aux f rest
            | _ => Lit c :: parse_aux f s'
            end
          else Lit c :: parse_aux f s'
      end
  end.
Definition parse_template (s : string) : list seg := parse_aux (String.length s) s.

(** The regular expressions the engine builds: literal characters and the
    capture groups [(.+)] (greedy) and [(?<name>.+?)] (lazy). Literal
    template text is read as literal characters, which is what the regular
    expression means as long as that text has no metacharacter (all the
    built-in templates). *)
Inductive atom := ALit (c : ascii) | AGroup (lazy : bool).

Definition atoms_of (lazy : bool) (p : list seg) : list atom :=
  map (fun s => match s with Lit c => ALit c | Hole _ => AGroup lazy end) p.

(** The characters with a meaning of their own in a regular expression
    outside a character class. A template whose literal text has none of
    them (every template of [initializeBasicRules]) is a well-formed
    regular expression once its placeholders are replaced, and that
    expression reads the literal text as those characters: this is the
    reading [atoms_of] makes. Templates with such characters (a rule added
    through [addRule] with a pattern such as ["("]) are outside this
    model: [new RegExp] may read them differently or throw. *)
Definition regex_meta (c : ascii) : bool :=
  existsb (Ascii.eqb c) ["\"; "^"; "$"; "."; "|"; "?"; "*"; "+"; "("; ")"; "["; "]"; "{"; "}"]%char.

Definition plain_template (p : string) : bool :=
  forallb (fun sg => match sg with Lit c => negb (regex_meta c) | Hole _ => true end)
          (parse_template p).

Definition hole_names (p : list seg) : list string :=
  flat_map (fun s => match s with Lit _ => [] | Hole n => [n] end) p.

(** [.] matches anything but a line terminator. *)
Definition line_terminator (c : ascii) : bool :=
  Ascii.eqb c "010"%char || Ascii.eqb c "013"%char.

Fixpoint run_line (s : list ascii) : nat :=
  match s with
  | [] => 0
  | c :: s' => if line_terminator c then 0 else S (run_line s')
  end.

Fixpoint first_some {A B} (f : A -> option B) (l : list A) : option B :=
  match l with
  | [] => None
  | x :: l' => match f x with Some y => Some y | None => first_some f l' end
  end.

(** Backtracking match at the current position, flag [i]: the first
    success in the order the JavaScript engine tries the alternatives
    (longest first for a greedy group, shortest first for a lazy one).
    Returns the captured texts in group order. *)
Fixpoint match_here (rs : list atom) (s : list ascii) : option (list (list ascii)) :=
  match rs with
  | [] => Some []
  | ALit c :: rs' =>
      match s with
      | d :: s' => if Ascii.eqb (upper_ascii c) (upper_ascii d) then match_here rs' s' else None
      | [] => None
      end
  | AGroup lazy :: rs' =>
      let n := run_line s in
      let lens := if lazy then seq 1 n else rev (seq 1 n) in
      first_some (fun k => option_map (fun caps => firstn k s :: caps)
                                      (match_here rs' (skipn k s))) lens
  end.

(** [RegExp.prototype.exec]: the leftmost position where a match starts. *)
Definition exec (rs : list atom) (s : string) : option (list string) :=
  let cs := list_ascii_of_string s in
  first_some (fun i => option_map (map string_of_list_ascii) (match_here rs (skipn i cs)))
             (seq 0 (S (List.length cs))).

(** A capture-group name must be an identifier. *)
Definition ident_start (c : ascii) : bool :=
  let n := nat_of_ascii c in
  ((65 <=? n) && (n <=? 90) || (97 <=? n) && (n <=? 122) || (n =? 36) || (n =? 95))%nat.
Definition ident_part (c : ascii) : bool :=
  let n := nat_of_ascii c in (ident_start c || (48 <=? n) && (n <=? 57))%nat.
Definition valid_name (s : string) : bool :=
  match s with
  | EmptyString => false
  | String c s' => ident_start c && forallb ident_part (list_ascii_of_string s')
  end.

Fixpoint nodup_str (l : list string) : bool :=
  match l with
  | [] => true
  | x :: l' => negb (existsb (String.eqb x) l') && nodup_str l'
  end.

(** [String.prototype.replace(pattern, replacement)] with a string
    pattern: the first occurrence only, with the [$]-patterns of the
    replacement expanded. *)
Fixpoint expand (matched before after : string) (r : string) : string :=
  match r with
  | String "$" (String "$" r') => String "$" (expand matched before after r')
  | String "$" (String "&" r') => matched ++ expand matched before after r'
  | String "$" (String "`" r') => before ++ expand matched before after r'
  | String "$" (String "'" r') => after ++ expand matched before after r'
  | String c r' => String c (expand matched before after r')
  | EmptyString => EmptyString
  end.

Definition replace_first (s pat rep : string) : string :=
  match index 0 pat s with
  | None => s
  | Some i =>
      let before := substring 0 i s in
      let after := substring (i + String.length pat) (String.length s - (i + String.length pat)) s in
      before ++ expand pat before after rep ++ after
  end.

End Re.
Import Re.

(* ------------------------------------------------------------------ *)
(** ** [class ReasoningEngine] *)
Module Reasoning.
Import Mem.

(** A rule as [addRule] stores it (the [createdAt] time is never read). *)
Record rule := mkRule {
  rule_name : string; pattern : list string; conclusion : string;
  rule_confidence : Q; usageCount : nat }.

(** A fact as [addFact] builds it; the [Set] holds their JSON text, so two
    facts are the same element when all four fields agree. *)
Record fact := mkFact {
  fact_content : string; fact_confidence : Q; fact_timestamp : Z; fact_source : string }.

Definition fact_eqb (a b : fact) : bool :=
  String.eqb a.(fact_content) b.(fact_content) && Qeq_bool a.(fact_confidence) b.(fact_confidence)
  && Z.eqb a.(fact_timestamp) b.(fact_timestamp) && String.eqb a.(fact_source) b.(fact_source).

Definition jsval_eqb (a b : jsval) : bool :=
  match a, b with
  | JStr x, JStr y => String.eqb x y
  | JNum x, JNum y => Z.eqb x y
  | JObj, JObj | JNull, JNull | JUndef, JUndef => true
  | _, _ => false
  end.

(** The entries of [reasoningChain.steps]. *)
Inductive step :=
| DirectFact (content : fact) (confidence : Q)
| MemoryRecall (content : jsval) (relevance : Q) (confidence : Q)
| RuleApplication (rule : string) (conclusion : string) (confidence : Q) (depth : nat)
| PatternMatching (pattern : string) (result : jsval) (confidence : Q)
| AnalogicalReasoning (source : jsval) (analogy : string) (confidence : Q).

(** [reasoningChain]. The last field is ghost state, absent from the
    source: the value merged into [confidence] each time a conclusion is
    pushed, in order. *)
Record chain := mkChain {
  ch_query : string; startTime : Z; steps : list step;
  conclusions : list jsval; confidence : Q; endTime : Z;
  contributed : list Q }.

Definition push_step (ch : chain) (s : step) : chain :=
  mkChain ch.(ch_query) ch.(startTime) (ch.(steps) ++ [s])%list ch.(conclusions)
          ch.(confidence) ch.(endTime) ch.(contributed).

(** [conclusions.push(c); confidence = v], recording [v]. *)
Definition push_set (ch : chain) (c : jsval) (v : Q) : chain :=
  mkChain ch.(ch_query) ch.(startTime) ch.(steps) (ch.(conclusions) ++ [c])%list
          v ch.(endTime) (ch.(contributed) ++ [v])%list.

(** [conclusions.push(c); confidence = Math.max(confidence, v)], recording [v]. *)
Definition push_max (ch : chain) (c : jsval) (v : Q) : chain :=
  mkChain ch.(ch_query) ch.(startTime) ch.(steps) (ch.(conclusions) ++ [c])%list
          (Qmax ch.(confidence) v) ch.(endTime) (ch.(contributed) ++ [v])%list.

Definition set_endTime (ch : chain) (t : Z) : chain :=
  mkChain ch.(ch_query) ch.(startTime) ch.(steps) ch.(conclusions)
          ch.(confidence) t ch.(contributed).

(** The engine's state: its memory, rules (a [Map] by name), facts and
    history. *)
Record engine := mkEngine {
  memory : Memory; rules : list (string * rule); facts : list fact;
  reasoningHistory : list chain }.

Definition set_memory (e : engine) (m : Memory) : engine :=
  mkEngine m e.(rules) e.(facts) e.(reasoningHistory).
Definition set_rules (e : engine) (r : list (string * rule)) : engine :=
  mkEngine e.(memory) r e.(facts) e.(reasoningHistory).

(** [addRule(name, rule)]. *)
Definition addRule (e : engine) (name : string) (pat : list string) (concl : string)
    (conf : Q) : engine :=
  set_rules e (map_set name (mkRule name pat concl conf 0) e.(rules)).

(** [addFact(fact, confidence)]. *)
Definition addFact (e : engine) (content : string) (conf : Q) (now : Z) : engine :=
  let f := mkFact content conf now "user_input" in
  if existsb (fact_eqb f) e.(facts) then e
  else mkEngine e.(memory) e.(rules) (e.(facts) ++ [f])%list e.(reasoningHistory).

(** [initializeBasicRules()]. *)
Definition basicRules : list (string * list string * string * Q) :=
  [("modus_ponens", ["if {A} then {B}"; "{A}"], "{B}", 9#10);
   ("modus_tollens", ["if {A} then {B}"; "not {B}"], "not {A}", 85#100);
   ("causal_chain", ["{A} causes {B}"; "{B} causes {C}"], "{A} may cause {C}", 7#10);
   ("analogy", ["{A} is like {B}"; "{A} has property {P}"], "{B} may have property {P}", 6#10);
   ("temporal_sequence", ["{A} happens before {B}"; "{B} is happening"], "{A} has happened", 8#10)].

(** [new ReasoningEngine(memory)]. *)
Definition new_ReasoningEngine (m : Memory) : engine :=
  fold_left (fun e '(n, p, c, k) => addRule e n p c k) basicRules (mkEngine m [] [] []).

Definition modus_ponens : rule :=
  mkRule "modus_ponens" ["if {A} then {B}"; "{A}"] "{B}" (9#10) 0.

(** [matchesRule(query, rule)], for templates read literally (see
    [plain_template]); its [new RegExp] is outside any [try], so on a
    template that is no valid regular expression the JavaScript method
    throws, which this definition does not model. *)
Definition matchesRule (query : string) (r : rule) : bool :=
  existsb (fun p => match exec (atoms_of false (parse_template p)) query with
                    | Some _ => true | None => false end) r.(pattern).

(** [extractVariables(text, pattern)], for templates read literally (see
    [plain_template]): [Err] when [new RegExp] throws on a placeholder
    (a name that is no identifier, or a repeated one);
    otherwise [match.groups], absent when there is no match or no group. *)
Definition extractVariables (text pat : string) : result (option (list (string * string))) :=
  let p := parse_template pat in
  let names := hole_names p in
  if negb (forallb valid_name names && nodup_str names)
  then Err "SyntaxError: Invalid regular expression"
  else match names with
       | [] => Ok None
       | _ => match exec (atoms_of true p) text with
              | Some caps => Ok (Some (combine names caps))
              | None => Ok None
              end
       end.

(** [applyRule(input, rule)], without its [rule.usageCount++] (done by the
    caller below, on success). *)
Definition applyRule (input : string) (r : rule) : option (string * Q) :=
  match r.(pattern) with
  | [] => None                       (* [pattern[0]] is undefined: caught *)
  | p0 :: _ =>
      match extractVariables input p0 with
      | Ok (Some ((_ :: _) as variables)) =>
          let concl := fold_left (fun c '(varName, varValue) =>
                         replace_first c ("{" ++ varName ++ "}") varValue)
                         variables r.(conclusion) in
          Some (concl, r.(rule_confidence))
      | _ => None
      end
  end.

Definition bump_usage (name : string) (rs : list (string * rule)) : list (string * rule) :=
  match map_get name rs with
  | Some r => map_set name (mkRule r.(rule_name) r.(pattern) r.(conclusion)
                                   r.(rule_confidence) (S r.(usageCount))) rs
  | None => rs
  end.

(** [applyRules(query, reasoningChain, depth, maxDepth)] over the rules
    [rs] (the [Map] being iterated), threading the chain and the rules'
    usage counts. [fuel] only makes the recursion structural: the source
    stops at its [depth >= maxDepth] test, and [applyRules] below passes
    more fuel than that test lets the recursion use. *)
Fixpoint applyRules_fuel (fuel : nat) (rs : list (string * rule)) (query : string)
    (st : chain * list (string * rule)) (depth maxDepth : nat)
    : chain * list (string * rule) :=
  match fuel with
  | O => st
  | S fuel' =>
      if (maxDepth <=? depth)%nat then st
      else
        fold_left (fun (st : chain * list (string * rule)) (entry : string * rule) =>
          let (ruleName, r) := entry in
          if matchesRule query r then
            match applyRule query r with
            | Some (content, conf) =>
                let (ch, us) := st in
                let us := bump_usage ruleName us in
                let ch := push_step ch (RuleApplication ruleName content conf depth) in
                let ch := if existsb (jsval_eqb (JStr content)) ch.(conclusions) then ch
                          else push_max ch (JStr content) conf in
                applyRules_fuel fuel' rs content (ch, us) (S depth) maxDepth
            | None => st
            end
          else st) rs st
  end.

Definition applyRules (rs : list (string * rule)) (query : string)
    (st : chain * list (string * rule)) (depth maxDepth : nat) : chain * list (string * rule) :=
  applyRules_fuel (S (maxDepth - depth)) rs query st depth maxDepth.

(** [findRelevantFacts(query)]. *)
Definition findRelevantFacts (e : engine) (query : string) : list fact :=
  let relevant := filter (fun f =>
    includes (toLowerCase f.(fact_content)) (toLowerCase query)
    || includes (toLowerCase query) (toLowerCase f.(fact_content))) e.(facts) in
  sort_by (fun a b => b.(fact_confidence) - a.(fact_confidence)) relevant.

(** A handler's answer [{content, confidence}]. *)
Definition answer := (jsval * Q)%type.

(** [explainConcept(concept)]. *)
Definition explainConcept (m : Memory) (concept : string) (now : Z) : Memory * answer :=
  let (m', rs) := recall m (JStr concept) "all" now in
  match rs with
  | r :: _ => (m', (JStr (concept ++ " is " ++ ToString r.(r_content)), r.(r_relevance)))
  | [] => (m', (JStr ("I need more information to explain " ++ concept), 3#10))
  end.

(** [provideInstructions(task)]. *)
Definition provideInstructions (m : Memory) (task : string) (now : Z) : Memory * answer :=
  let (m', rs) := recall m (JStr ("how to " ++ task)) "all" now in
  match rs with
  | r :: _ => (m', (r.(r_content), r.(r_relevance)))
  | [] => (m', (JStr ("To " ++ task ++ ", you might need to break it down into smaller steps"), 4#10))
  end.

(** [explainReason(statement)]. *)
Definition explainReason (m : Memory) (statement : string) (now : Z) : Memory * answer :=
  let (m', rs) := recall m (JStr ("because " ++ statement)) "all" now in
  match rs with
  | r :: _ => (m', (r.(r_content), r.(r_relevance)))
  | [] => (m', (JStr ("The reason for " ++ statement ++ " might be related to cause and effect"), 3#10))
  end.

(** [provideTimeInfo(event)]. *)
Definition provideTimeInfo (m : Memory) (event : string) (now : Z) : Memory * answer :=
  let (m', rs) := recall m (JStr ("when " ++ event)) "all" now in
  match rs with
  | r :: _ => (m', (r.(r_content), r.(r_relevance)))
  | [] => (m', (JStr ("I don't have specific timing information about " ++ event), 2#10))
  end.

Definition lits (s : string) : list atom := map ALit (list_ascii_of_string s).

(** The four regular expressions of [patternMatching], with their
    [pattern.source] and handler. *)
Definition handlers : list (string * list atom * (Memory -> string -> Z -> Memory * answer)) :=
  [("what is (.+)", (lits "what is " ++ [AGroup false])%list, explainConcept);
   ("how to (.+)", (lits "how to " ++ [AGroup false])%list, provideInstructions);
   ("why (.+)", (lits "why " ++ [AGroup false])%list, explainReason);
   ("when (.+)", (lits "when " ++ [AGroup false])%list, provideTimeInfo)].

(** [patternMatching(query, reasoningChain)]: the first regular expression
    that matches runs its handler, then the loop breaks. *)
Fixpoint patternMatching_aux
    (hs : list (string * list atom * (Memory -> string -> Z -> Memory * answer)))
    (m : Memory) (query : string) (ch : chain) (now : Z) : Memory * chain :=
  match hs with
  | [] => (m, ch)
  | (src, re, handler) :: hs' =>
      match exec re query with
      | Some (cap :: _) =>
          let (m', res) := handler m cap now in
          let (content, conf) := res in
          let ch := push_step ch (PatternMatching src content conf) in
          let ch := if existsb (jsval_eqb content) ch.(conclusions) then ch
                    else push_max ch content conf in
          (m', ch)
      | _ => patternMatching_aux hs' m query ch now
      end
  end.

Definition patternMatching (m : Memory) (query : string) (ch : chain) (now : Z)
    : Memory * chain := patternMatching_aux handlers m query ch now.

(** [findAnalogy(source, target)]: [target.toLowerCase()] throws when the
    target is not a string. *)
Definition findAnalogy (source : string) (target : jsval) : result (option (string * Q)) :=
  match target with
  | JStr t =>
      let sourceTokens := split_space (toLowerCase source) in
      let targetTokens := split_space (toLowerCase t) in
      let commonTokens := filter (fun token =>
        existsb (String.eqb token) targetTokens && (3 <? String.length token)%nat) sourceTokens in
      match commonTokens with
      | [] => Ok None
      | _ => Ok (Some ("Similar to: " ++ t,
               inject_Z (Z.of_nat (List.length commonTokens))
               / inject_Z (Z.of_nat (Nat.max (List.length sourceTokens) (List.length targetTokens)))))
      end
  | _ => Err "TypeError: target.toLowerCase is not a function"
  end.

(** [conclusions.some(c => c.includes(a))]: [includes] exists on strings
    only, so a non-string conclusion reached first throws. *)
Fixpoint some_includes (cs : list jsval) (a : string) : result bool :=
  match cs with
  | [] => Ok false
  | JStr c :: cs' => if includes c a then Ok true else some_includes cs' a
  | _ :: _ => Err "TypeError: c.includes is not a function"
  end.

(** The loop of [analogicalReasoning] over the selected memories. *)
Fixpoint analogy_loop (query : string) (ms : list recalled) (ch : chain) : result chain :=
  match ms with
  | [] => Ok ch
  | mem :: ms' =>
      match findAnalogy query mem.(r_content) with
      | Err e => Err e
      | Ok None => analogy_loop query ms' ch
      | Ok (Some (a, conf)) =>
          let ch := push_step ch (AnalogicalReasoning mem.(r_content) a conf) in
          match some_includes ch.(conclusions) a with
          | Err e => Err e
          | Ok true => analogy_loop query ms' ch
          | Ok false =>
              analogy_loop query ms'
                (push_max ch (JStr ("Based on analogy: " ++ a)) (conf * (7#10)))
          end
      end
  end.

(** [analogicalReasoning(query, reasoningChain)]. *)
Definition analogicalReasoning (m : Memory) (query : string) (ch : chain) (now : Z)
    : result (Memory * chain) :=
  let (m', rs) := recall m (JStr query) "episodic" now in
  let similar := firstn 3 (filter (fun r => Qltb (1#2) r.(r_relevance)) rs) in
  match analogy_loop query similar ch with
  | Ok ch' => Ok (m', ch')
  | Err e => Err e
  end.

(** [reason(query, maxDepth)], all [Date.now()] calls reading [now]. On
    [Err] the updated engine is not returned, although the JavaScript
    object keeps the changes made before the throw (access counts, rule
    usage counts); the properties below say nothing about the state after
    a throw. *)
Definition reason (e : engine) (query : string) (maxDepth : nat) (now : Z)
    : result (engine * chain) :=
  let ch := mkChain query now [] [] 0 now [] in
  (* Direct fact lookup *)
  let ch := match findRelevantFacts e query with
            | f :: _ => push_set (push_step ch (DirectFact f f.(fact_confidence)))
                                 (JStr f.(fact_content)) f.(fact_confidence)
            | [] => ch
            end in
  (* Memory-based reasoning *)
  let (m, memoryResults) := recall e.(memory) (JStr query) "all" now in
  let ch := match memoryResults with
            | best :: _ =>
                let ch := push_step ch (MemoryRecall best.(r_content) best.(r_relevance)
                                                    best.(r_importance)) in
                match ch.(conclusions) with
                | [] => push_set ch best.(r_content) (best.(r_relevance) * best.(r_importance))
                | _ => ch
                end
            | [] => ch
            end in
  (* Rule-based reasoning *)
  let (ch, rs) := applyRules e.(rules) query (ch, e.(rules)) 0 maxDepth in
  (* Pattern matching *)
  let (m, ch) := patternMatching m query ch now in
  (* Analogical reasoning *)
  match analogicalReasoning m query ch now with
  | Err err => Err err
  | Ok (m, ch) =>
      let ch := set_endTime ch now in
      let hist := (e.(reasoningHistory) ++ [ch])%list in
      let hist := if (100 <? List.length hist)%nat then tl hist else hist in
      Ok (mkEngine m rs e.(facts) hist, ch)
  end.

End Reasoning.

(* ------------------------------------------------------------------ *)
(** ** Persistence and statistics: [save], [load], [getMostAccessedMemories] *)
Module Persist.
Import Mem Reasoning.

(** [new Map(entries)]: each entry is [set] in turn. *)
Definition new_Map {V} (entries : list (string * V)) : list (string * V) :=
  fold_left (fun acc '(k, v) => map_set k v acc) entries [].

(** [x || []] on an array field of the loaded data: only an absent field
    ([undefined] or [null], here [None]) falls back, an array being truthy. *)
Definition or_empty {A} (o : option (list A)) : list A :=
  match o with Some l => l | None => [] end.

(** The [config] object [Memory.save] writes. *)
Record savedConfig := mkSavedConfig {
  sc_shortTermCapacity : Q; sc_longTermCapacity : Q; sc_episodicCapacity : Q;
  sc_decayRate : Q; sc_consolidationThreshold : nat }.

(** The data [Memory.load] reads; [None] is an absent field. The
    [semantic] and [procedural] maps are not part of the model. *)
Record memoryData := mkMemoryData {
  d_shortTerm : option (list stItem);
  d_longTerm : option (list (string * ltItem));
  d_episodic : option (list episode);
  d_memoryWeights : option (list (string * Q));
  d_accessCount : option (list (string * nat));
  d_lastAccess : option (list (string * Z));
  d_config : option savedConfig;
  d_timestamp : Z }.

(** [Memory.save()]: [Array.from(map.entries())] is the list of entries. *)
Definition save (m : Memory) (now : Z) : memoryData :=
  mkMemoryData (Some m.(shortTerm)) (Some m.(longTerm)) (Some m.(episodic))
    (Some m.(memoryWeights)) (Some m.(accessCount)) (Some m.(lastAccess))
    (Some (mkSavedConfig m.(shortTermCapacity) m.(longTermCapacity) m.(episodicCapacity)
                         m.(decayRate) m.(consolidationThreshold)))
    now.

(** [Memory.load(data)], with [Object.assign(this, data.config)] when
    [data.config] is present. *)
Definition load (m : Memory) (data : memoryData) : Memory :=
  let m1 := mkMemory m.(shortTermCapacity) m.(longTermCapacity) m.(episodicCapacity)
              (or_empty data.(d_shortTerm)) (new_Map (or_empty data.(d_longTerm)))
              (or_empty data.(d_episodic)) (new_Map (or_empty data.(d_memoryWeights)))
              (new_Map (or_empty data.(d_accessCount))) (new_Map (or_empty data.(d_lastAccess)))
              m.(decayRate) m.(consolidationThreshold) m.(idCounter) in
  match data.(d_config) with
  | Some c => mkMemory c.(sc_shortTermCapacity) c.(sc_longTermCapacity) c.(sc_episodicCapacity)
                m1.(shortTerm) m1.(longTerm) m1.(episodic) m1.(memoryWeights)
                m1.(accessCount) m1.(lastAccess) c.(sc_decayRate)
                c.(sc_consolidationThreshold) m1.(idCounter)
  | None => m1
  end.

(** JavaScript truthiness of a value. *)
Definition truthy (v : jsval) : bool :=
  match v with
  | JStr s => negb (String.eqb s "")
  | JNum n => negb (Z.eqb n 0)
  | JObj => true
  | JNull | JUndef => false
  end.

(** One entry of [getMostAccessedMemories]: [lastAccess.get(id)] may be
    [undefined] ([None]). *)
Record accessed := mkAccessed {
  a_id : string; a_accessCount : nat; a_lastAccess : option Z; a_content : jsval }.

(** The comparator [([,a], [,b]) => b - a]. *)
Definition count_cmp (x y : string * nat) : Q :=
  inject_Z (Z.of_nat (snd y)) - inject_Z (Z.of_nat (snd x)).

(** [getMostAccessedMemories(limit)]. *)
Definition getMostAccessedMemories (m : Memory) (limit : nat) : list accessed :=
  map (fun '(id, count) =>
         mkAccessed id count (map_get id m.(lastAccess))
           (match map_get id m.(longTerm) with
            | Some it => if truthy it.(lt_content) then it.(lt_content) else JStr "N/A"
            | None => JStr "N/A"
            end))
      (firstn limit (sort_by count_cmp m.(accessCount))).

(** [new Set(array)] on the facts: a repeated element is kept once, at its
    first position. *)
Definition new_Set (fs : list fact) : list fact :=
  fold_left (fun acc f => if existsb (fact_eqb f) acc then acc else (acc ++ [f])%list) fs [].

(** The data [ReasoningEngine.load] reads; the [inferences] map, never
    written by the engine, is not part of the model. *)
Record engineData := mkEngineData {
  ed_rules : option (list (string * rule));
  ed_facts : option (list fact);
  ed_reasoningHistory : option (list chain);
  ed_timestamp : Z }.

(** [ReasoningEngine.save()]: the history is cut to its last 50 entries. *)
Definition save_engine (e : engine) (now : Z) : engineData :=
  mkEngineData (Some e.(rules)) (Some e.(facts)) (Some (last_n 50 e.(reasoningHistory))) now.

(** [ReasoningEngine.load(data)]. *)
Definition load_engine (e : engine) (data : engineData) : engine :=
  mkEngine e.(memory) (new_Map (or_empty data.(ed_rules))) (new_Set (or_empty data.(ed_facts)))
    (or_empty data.(ed_reasoningHistory)).

End Persist.

(* ================================================================== *)
(** * Scenarios and operation sequences *)

Import Mem Reasoning Persist.

Definition default_config : config := mkConfig None None None.

(** [recall(query)] repeated [n] times at time [now]. *)
Definition recall_times (n : nat) (m : Memory) (q : jsval) (now : Z) : Memory :=
  Nat.iter n (fun m => fst (recall m q "all" now)) m.

(** Short-term capacity 1, long-term capacity 1 holding "k" with
    importance 1, and the important item "remember me" (importance 0.8)
    in the short-term buffer. *)
Definition full_longterm_state : Memory :=
  let m := new_Memory (mkConfig (Some 1) (Some 1) None) in
  let m := fst (addToLongTerm m "k" (JStr "x") 1 0) in
  fst (addToShortTerm m (JStr "remember me") 0).

(** A memory holding the long-term entry "apple pie" with importance 0.5,
    under the built-in rules. *)
Definition apple_engine : engine :=
  new_ReasoningEngine (fst (addToLongTerm (new_Memory default_config) "k"
                              (JStr "apple pie") (1#2) 0)).

(** [apple_engine] with the fact "the sky is blue" at confidence 0.6. *)
Definition sky_engine : engine := addFact apple_engine "the sky is blue" (3#5) 0.

(** Short-term capacity 1 with the important item "remember me"
    (importance 0.8) in the buffer and an empty long-term store. *)
Definition promotion_state : Memory :=
  fst (addToShortTerm (new_Memory (mkConfig (Some 1) None None)) (JStr "remember me") 0).

(** What one [applyDecay] call does to a single long-term entry, read off
    the loop body: [None] when it deletes the entry. *)
Definition decay_item (Math_exp : Q -> Q) (now : Z) (rate : Q) (item : ltItem)
    : option ltItem :=
  let timeSinceAccess := (now - item.(lt_lastAccess))%Z in
  if (decayThreshold <? timeSinceAccess)%Z then
    let importance := item.(lt_importance)
        * Math_exp (- (rate * (inject_Z timeSinceAccess / inject_Z decayThreshold))) in
    if Qltb importance (1#10) && negb item.(lt_consolidated) then None
    else Some (mkLt item.(lt_content) importance item.(lt_timestamp)
                    item.(lt_accessCount) item.(lt_lastAccess) item.(lt_consolidated))
  else Some item.

(** A long-term store holding "k" (importance 0.5, last accessed at 0). *)
Definition decay_state : Memory :=
  fst (addToLongTerm (new_Memory default_config) "k" (JStr "x") (1#2) 0).

(** The fields the three tiers' bounds read. *)
Definition same_caps (m m' : Memory) : Prop :=
  m'.(shortTermCapacity) = m.(shortTermCapacity) /\
  m'.(longTermCapacity) = m.(longTermCapacity) /\
  m'.(episodicCapacity) = m.(episodicCapacity).

(** The bounds the insertion methods keep: the buffers within their
    capacities, the long-term store within its capacity rounded up
    (the [slice] in [manageLongTermCapacity] cuts [size - capacity] down
    to an integer). *)
Definition cap_inv (m : Memory) : Prop :=
  NoDup (map fst m.(longTerm)) /\ 0 <= m.(longTermCapacity) /\
  len_Q m.(shortTerm) <= m.(shortTermCapacity) /\
  (Z.of_nat (List.length m.(longTerm)) <= Qceiling m.(longTermCapacity))%Z /\
  len_Q m.(episodic) <= m.(episodicCapacity).

(** A configured capacity that is absent or a number [>= 0]. *)
Definition nonneg_opt (o : option Q) : Prop :=
  match o with Some c => 0 <= c | None => True end.

(** The trace's confidence is the largest value merged so far (0 before
    any), and one value is merged per conclusion. *)
Definition conf_inv (ch : chain) : Prop :=
  ch.(confidence) == fold_left Qmax ch.(contributed) 0 /\
  List.length ch.(contributed) = List.length ch.(conclusions).

(** A call of one of the three insertion methods of [Memory]. *)
Inductive op :=
| AddShortTerm (item : jsval) (now : Z)
| AddLongTerm (key : string) (value : jsval) (importance : Q) (now : Z)
| AddEpisodic (event : jsval) (now : Z).

(** Running one call. [addEpisodicMemory] throws before it writes
    anything, so a throwing call leaves the object as it was. *)
Definition run_op (m : Memory) (o : op) : Memory :=
  match o with
  | AddShortTerm item now => fst (addToShortTerm m item now)
  | AddLongTerm key value importance now => fst (addToLongTerm m key value importance now)
  | AddEpisodic event now =>
      match addEpisodicMemory m event now with
      | Ok (m', _) => m'
      | Err _ => m
      end
  end.

Definition run_ops (m : Memory) (os : list op) : Memory := fold_left run_op os m.

(** A store holding "k" (importance 0.5, not consolidated) and "c"
    (importance 0.5, consolidated), both last accessed at 0. *)
Definition decay_pair_state : Memory :=
  set_longTerm decay_state [("k", mkLt (JStr "x") (1#2) 0 0 0 false);
                            ("c", mkLt (JStr "y") (1#2) 0 0 0 true)].

(** A store whose only entry "k" was promoted from short-term memory
    (consolidated), last accessed at 0. *)
Definition consolidated_state : Memory :=
  set_longTerm decay_state [("k", mkLt (JStr "x") (1#2) 0 0 0 true)].

(** The memory after one [recall] of "x" at time 1 on [decay_state]:
    "k" has an access count and a last access time. *)
Definition recalled_state : Memory := fst (recall decay_state (JStr "x") "all" 1).

(** An engine over the empty memory holding two facts. *)
Definition fact_engine : engine :=
  addFact (addFact (new_ReasoningEngine (new_Memory default_config)) "the sky is blue" 1 0)
          "water is wet" (9#10) 1.

(** A memory whose only episode is the event "sunny day". *)
Definition episode_state : Memory :=
  match addEpisodicMemory (new_Memory default_config) (JStr "sunny day") 0 with
  | Ok (m, _) => m
  | Err _ => new_Memory default_config
  end.

(** How a rule after [reason] relates to the same entry before: same name,
    pattern, conclusion and confidence, usage count at least as large. *)
Definition rule_bumped (x y : string * rule) : Prop :=
  fst y = fst x /\ (snd y).(rule_name) = (snd x).(rule_name) /\
  (snd y).(pattern) = (snd x).(pattern) /\ (snd y).(conclusion) = (snd x).(conclusion) /\
  (snd y).(rule_confidence) = (snd x).(rule_confidence) /\
  ((snd x).(usageCount) <= (snd y).(usageCount))%nat.

(** The score [manageLongTermCapacity] ranks long-term entries by
    (its comparator is the difference of two scores): importance plus 0.1
    per access plus 0.001 per millisecond of last-access time. *)
Definition capacity_score (it : ltItem) : Q :=
  it.(lt_importance) + inject_Z (Z.of_nat it.(lt_accessCount)) * (1#10)
  + inject_Z it.(lt_lastAccess) * (1#1000).

(** Long-term capacity 1.5 holding three entries, "a" (importance 0.9),
    "b" (importance 0.2) and "c" (importance 0.5), as [addToLongTerm]
    leaves it just before its call to [manageLongTermCapacity]. *)
Definition over_capacity_state : Memory :=
  set_longTerm (new_Memory (mkConfig None (Some (3#2)) None))
    [("a", mkLt (JStr "x") (9#10) 0 0 0 false); ("b", mkLt (JStr "y") (1#5) 0 0 0 false);
     ("c", mkLt (JStr "z") (1#2) 0 0 0 false)].

(* ================================================================== *)
(** * Proofs *)

From Stdlib Require Import Permutation Lqa.

(** ** Booleans on numbers and strings *)

Lemma Qltb_spec (a b : Q) : Qltb a b = true <-> a < b.
Proof.
  unfold Qltb. rewrite negb_true_iff. split.
  - intro H. apply Qnot_le_lt. intro Hle. apply Qle_bool_iff in Hle. congruence.
  - intro H. destruct (Qle_bool b a) eqn:E; [|reflexivity].
    apply Qle_bool_iff in E. exfalso. apply (Qlt_not_le _ _ H E).
Qed.

Lemma Qltb_false (a b : Q) : Qltb a b = false -> b <= a.
Proof.
  unfold Qltb. rewrite negb_false_iff. apply Qle_bool_iff.
Qed.

Lemma includes_empty (s : string) : includes s EmptyString = true.
Proof. destruct s; reflexivity. Qed.

Lemma prefix_iff (t s : string) : prefix t s = true <-> exists post, s = (t ++ post)%string.
Proof.
  revert s; induction t as [|a t IH]; intros s; simpl.
  - split; [intros _; exists s; reflexivity|intros _; destruct s; reflexivity].
  - destruct s as [|b s].
    + split; [discriminate|intros [post H]; discriminate].
    + simpl. destruct (ascii_dec a b) as [->|Hne].
      * rewrite IH. split; intros [post H]; exists post;
          [rewrite H; reflexivity|injection H; auto].
      * split; [discriminate|intros [post H]; injection H; intros; congruence].
Qed.

Lemma includes_iff (s t : string) : includes s t = true <-> contains_substring s t.
Proof.
  unfold includes. induction s as [|b s IH].
  - destruct t as [|a t]; simpl.
    + split; intros _; [exists EmptyString, EmptyString; reflexivity|reflexivity].
    + split; [discriminate|]. intros (pre & post & H). destruct pre; discriminate.
  - change (index 0 t (String b s)) with
      (if prefix t (String b s) then Some 0%nat
       else match index 0 t s with Some n => Some (S n) | None => None end).
    destruct (prefix t (String b s)) eqn:Hp.
    + split; intros _; [|reflexivity]. apply prefix_iff in Hp as [post Hp].
      exists EmptyString, post. exact Hp.
    + destruct (index 0 t s) as [n|] eqn:Ei.
      * split; intros _; [|reflexivity].
        destruct (proj1 IH eq_refl) as (pre & post & H).
        exists (String b pre), post. rewrite H. reflexivity.
      * split; [discriminate|]. intros (pre & post & H).
        destruct pre as [|a pre]; simpl in H.
        -- assert (prefix t (String b s) = true) by (apply prefix_iff; exists post; exact H).
           congruence.
        -- injection H as _ H. apply IH. exists pre, post. exact H.
Qed.

Lemma token_hit_iff (ct : list string) (t : string) :
  existsb (fun cToken => includes cToken t || includes t cToken) ct = true <->
  exists u, In u ct /\ (contains_substring u t \/ contains_substring t u).
Proof.
  rewrite existsb_exists. split; intros [u [Hin H]]; exists u; split; auto.
  - apply orb_true_iff in H. rewrite !includes_iff in H. exact H.
  - apply orb_true_iff. rewrite !includes_iff. exact H.
Qed.

Lemma count_occ_map_filter {A} (f : A -> bool) (l : list A) :
  count_occ Bool.bool_dec (map f l) true = List.length (filter f l).
Proof.
  induction l as [|x l IH]; simpl; [reflexivity|].
  destruct (f x); simpl; rewrite IH; reflexivity.
Qed.

(** ** The insertion sort standing for [Array.prototype.sort] *)
Section SortFacts.
Context {A : Type} (cmp : A -> A -> Q).

Lemma insert_by_perm (x : A) (l : list A) : Permutation (x :: l) (insert_by cmp x l).
Proof.
  induction l as [|y l IH]; simpl; [reflexivity|].
  destruct (Qltb 0 (cmp x y)); [|reflexivity].
  rewrite perm_swap. constructor. exact IH.
Qed.

Lemma sort_by_perm (l : list A) : Permutation l (sort_by cmp l).
Proof.
  induction l as [|x l IH]; simpl; [reflexivity|].
  rewrite <- insert_by_perm. constructor. exact IH.
Qed.

Lemma In_sort_by (x : A) (l : list A) : In x (sort_by cmp l) <-> In x l.
Proof.
  split; apply Permutation_in; [symmetry|]; apply sort_by_perm.
Qed.

(** With the comparator [key b - key a] the result is in descending order
    of [key]. *)
Variable key : A -> Q.
Hypothesis cmp_key : forall a b, cmp a b = key b - key a.

Let desc (a b : A) : Prop := key b <= key a.

Lemma insert_by_sorted (x : A) (l : list A) :
  Sorted desc l -> Sorted desc (insert_by cmp x l).
Proof.
  induction l as [|y l IH]; simpl; intro Hs.
  - repeat constructor.
  - destruct (Qltb 0 (cmp x y)) eqn:E.
    + apply Qltb_spec in E. rewrite cmp_key in E.
      apply Sorted_inv in Hs as [Hl Hhd].
      constructor; [apply IH; exact Hl|].
      destruct l as [|z l]; simpl.
      * constructor. unfold desc. lra.
      * destruct (Qltb 0 (cmp x z)).
        -- constructor. inversion Hhd; assumption.
        -- constructor. unfold desc. lra.
    + apply Qltb_false in E. rewrite cmp_key in E.
      constructor; [exact Hs|]. constructor. unfold desc. lra.
Qed.

Lemma sort_by_sorted (l : list A) : Sorted desc (sort_by cmp l).
Proof.
  induction l as [|x l IH]; simpl; [constructor|].
  apply insert_by_sorted. exact IH.
Qed.
End SortFacts.

(** ** [recall] *)

Lemma recall_result (m : Memory) (q : jsval) (t : string) (now : Z) :
  exists results,
    snd (recall m q t now) = sort_by relevance_cmp results /\
    incl results (searchShortTerm m q ++ searchLongTerm m q ++ searchEpisodic m q).
Proof.
  unfold recall. simpl. eexists. split; [reflexivity|].
  intros r Hr. rewrite !in_app_iff in Hr |- *.
  destruct (_ || String.eqb t "shortterm"), (_ || String.eqb t "longterm"),
           (_ || String.eqb t "episodic"); simpl in Hr; tauto.
Qed.

Lemma search_relevance (m : Memory) (q : jsval) (r : recalled) :
  In r (searchShortTerm m q ++ searchLongTerm m q ++ searchEpisodic m q) ->
  1#10 < r.(r_relevance).
Proof.
  rewrite !in_app_iff. intros [H|[H|H]].
  - unfold searchShortTerm in H. apply filter_In in H as [_ H]. apply Qltb_spec, H.
  - unfold searchLongTerm in H. apply in_flat_map in H as [[k it] [_ H]].
    destruct (Qltb (1#10) _) eqn:E; [|destruct H].
    destruct H as [<-|[]]. apply Qltb_spec, E.
  - unfold searchEpisodic in H. apply filter_In in H as [_ H]. apply Qltb_spec, H.
Qed.

Lemma recall_relevance (m : Memory) (q : jsval) (t : string) (now : Z) (r : recalled) :
  In r (snd (recall m q t now)) -> 1#10 < r.(r_relevance).
Proof.
  destruct (recall_result m q t now) as [res [-> Hincl]].
  intro H. apply In_sort_by in H. apply search_relevance with m q. apply Hincl, H.
Qed.

(** Claim C3: for every query and every memory state, the list [recall]
    returns is sorted by descending relevance score and holds no entry
    whose relevance score is at most 0.1. *)
Theorem recall_sorted_filtered (m : Memory) (q : jsval) (t : string) (now : Z) :
  let res := snd (recall m q t now) in
  Sorted (fun a b => b.(r_relevance) <= a.(r_relevance)) res /\
  Forall (fun r => 1#10 < r.(r_relevance)) res.
Proof.
  cbv zeta. split.
  - destruct (recall_result m q t now) as [res [-> _]].
    apply (sort_by_sorted relevance_cmp r_relevance). reflexivity.
  - apply Forall_forall. apply recall_relevance.
Qed.

(** ** Concrete runs *)

(** Claim C7 (code_bug): the [modus_ponens] rule as [new ReasoningEngine]
    registers it, applied to "if rain then wet", concludes "w" with
    confidence 0.9, not "wet": the last group [(?<B>.+?)] is lazy and
    nothing anchors it to the end of the text, so it captures one
    character. *)
Theorem modus_ponens_rain_gives_w :
  match map_get "modus_ponens" (new_ReasoningEngine (new_Memory default_config)).(rules) with
  | Some r => applyRule "if rain then wet" r
  | None => None
  end = Some ("w", 9#10).
Proof. vm_compute. reflexivity. Qed.

(** Claim C9 (code_bug): [addEpisodicMemory] throws on an object event,
    the kind [AIAgent.learnFromInteraction] passes: [analyzeEmotionalContext]
    calls [content.toLowerCase()] without the string test that
    [calculateImportance] and [calculateRelevance] make. *)
Theorem episodic_object_throws :
  addEpisodicMemory (new_Memory default_config) JObj 0
  = Err "TypeError: content.toLowerCase is not a function".
Proof. vm_compute. reflexivity. Qed.

(** Claim C8 (code_bug): after [addToLongTerm("k", "hello", 0.5)] and
    seven [recall("hello")] calls, [updateAccess] has raised the weight
    index entry of "k" to 0.6 while the stored item's importance is still
    0.5. *)
Theorem weights_diverge_after_recalls :
  let m := recall_times 7 (fst (addToLongTerm (new_Memory default_config) "k"
                                  (JStr "hello") (1#2) 0)) (JStr "hello") 0 in
  match map_get "k" m.(memoryWeights), map_get "k" m.(longTerm) with
  | Some w, Some it => w == 3#5 /\ it.(lt_importance) == 1#2
  | _, _ => False
  end.
Proof. vm_compute. split; reflexivity. Qed.

(** Claim C6, counterexample: the empty query has no whitespace-separated
    token, yet its score against "abc" is 1, not 0: [split(' ')] turns
    it into one empty token, which every content token contains. *)
Theorem relevance_empty_query :
  split_space (toLowerCase "") = [""] /\
  calculateRelevance (JStr "") (JStr "abc") == 1 /\
  ~ calculateRelevance (JStr "") (JStr "abc") == 0.
Proof. vm_compute. split; [reflexivity|split; [reflexivity|discriminate]]. Qed.

(** Claim C1, counterexample: two configurations whose capacity is a
    number [>= 0] and whose tier outgrows it. A long-term capacity of 2.5
    holds 3 entries after three [addToLongTerm] calls with distinct keys:
    at the third, [manageLongTermCapacity] computes
    [slice(0, 3 - 2.5)], which removes nothing. A short-term capacity of 0
    is falsy, so [config.shortTermCapacity || 10] makes the capacity 10
    and one [addToShortTerm] leaves a buffer of length 1 > 0. *)
Theorem capacity_exceeded :
  (let m := run_ops (new_Memory (mkConfig None (Some (5#2)) None))
              [AddLongTerm "a" (JStr "x") (1#2) 0; AddLongTerm "b" (JStr "y") (1#2) 1;
               AddLongTerm "c" (JStr "z") (1#2) 2] in
   List.length m.(longTerm) = 3%nat /\ ~ len_Q m.(longTerm) <= 5#2) /\
  (let m := fst (addToShortTerm (new_Memory (mkConfig (Some 0) None None)) (JStr "a") 0) in
   List.length m.(shortTerm) = 1%nat /\ ~ len_Q m.(shortTerm) <= 0).
Proof.
  vm_compute. split; (split; [reflexivity|intro H; apply H; reflexivity]).
Qed.

(** Claim C2, counterexample: with the buffer at capacity and an evicted
    item of importance 0.8 > 0.7, the next [addToShortTerm] leaves no new
    long-term entry: [manageLongTermCapacity] evicts the promoted copy
    at once, the long-term store being full. *)
Theorem promotion_evicted_when_longterm_full :
  let m := full_longterm_state in
  len_Q m.(shortTerm) == m.(shortTermCapacity) /\
  option_map st_importance (hd_error m.(shortTerm)) = Some (16#20) /\
  7#10 < 16#20 /\
  map fst (fst (addToShortTerm m (JStr "b") 0)).(longTerm) = ["k"] /\
  map fst m.(longTerm) = ["k"].
Proof. vm_compute. repeat split; reflexivity. Qed.

(** Claim C4, counterexample: for "apple tart" the only step that adds a
    conclusion is the memory recall, whose step confidence is 0.5; the
    trace's confidence is 0.25 (relevance 0.5 times importance 0.5). *)
Theorem reason_memory_step_confidence :
  match reason apple_engine "apple tart" 3 0 with
  | Ok (_, ch) =>
      ch.(steps) = [MemoryRecall (JStr "apple pie") (1#2) (1#2)] /\
      ch.(conclusions) = [JStr "apple pie"] /\
      ch.(confidence) == 1#4 /\ ~ ch.(confidence) == 1#2
  | Err _ => False
  end.
Proof.
  vm_compute. split; [reflexivity|]. split; [reflexivity|]. split; [reflexivity|discriminate].
Qed.

(** ** [applyRules]: depth bound *)

Lemma fold_left_ext_in {A B} (f g : A -> B -> A) (l : list B) (a : A) :
  (forall x y, f x y = g x y) -> fold_left f l a = fold_left g l a.
Proof.
  intro H. revert a. induction l as [|y l IH]; intro a; simpl; [reflexivity|].
  rewrite H. apply IH.
Qed.

(** The recursion stops at its [depth >= maxDepth] test: any fuel beyond
    [maxDepth - depth] gives the same run. *)
Lemma applyRules_fuel_enough (f1 f2 : nat) rs q st (d D : nat) :
  (D - d < f1)%nat -> (D - d < f2)%nat ->
  applyRules_fuel f1 rs q st d D = applyRules_fuel f2 rs q st d D.
Proof.
  revert f2 q st d. induction f1 as [|f1 IH]; intros f2 q st d H1 H2; [lia|].
  destruct f2 as [|f2]; [lia|]. simpl.
  destruct (D <=? d)%nat eqn:E; [reflexivity|].
  apply Nat.leb_gt in E.
  apply fold_left_ext_in. intros [ch us] [name r].
  destruct (matchesRule q r); [|reflexivity].
  destruct (applyRule q r) as [[c k]|]; [|reflexivity].
  apply IH; lia.
Qed.

Lemma fold_extends {X B} (G : chain * X -> B -> chain * X) (Pn : step -> Prop) :
  (forall st e, exists new,
      (fst (G st e)).(steps) = ((fst st).(steps) ++ new)%list /\ Forall Pn new) ->
  forall L st, exists new,
      (fst (fold_left G L st)).(steps) = ((fst st).(steps) ++ new)%list /\ Forall Pn new.
Proof.
  intros HG L. induction L as [|e L IH]; intro st; simpl.
  - exists []. rewrite app_nil_r. split; [reflexivity|constructor].
  - destruct (HG st e) as [n1 [H1 F1]]. destruct (IH (G st e)) as [n2 [H2 F2]].
    exists (n1 ++ n2)%list. rewrite H2, H1, app_assoc. split; [reflexivity|].
    apply Forall_app. split; assumption.
Qed.

(** Every step a run adds is a rule application at a depth in
    [[depth, maxDepth)]. *)
Lemma applyRules_fuel_steps (fuel : nat) rs q st (d D : nat) :
  exists new,
    (fst (applyRules_fuel fuel rs q st d D)).(steps) = ((fst st).(steps) ++ new)%list /\
    Forall (fun s => exists n c k dd, s = RuleApplication n c k dd /\ (d <= dd < D)%nat) new.
Proof.
  revert q st d. induction fuel as [|fuel IH]; intros q st d.
  { exists []. rewrite app_nil_r. split; [reflexivity|constructor]. }
  simpl. destruct (D <=? d)%nat eqn:E.
  { exists []. rewrite app_nil_r. split; [reflexivity|constructor]. }
  apply Nat.leb_gt in E.
  apply fold_extends. intros [ch us] [name r]. simpl.
  destruct (matchesRule q r);
    [|exists []; rewrite app_nil_r; split; [reflexivity|constructor]].
  destruct (applyRule q r) as [[c k]|];
    [|exists []; rewrite app_nil_r; split; [reflexivity|constructor]].
  set (ch1 := push_step ch (RuleApplication name c k d)).
  set (ch2 := if existsb (jsval_eqb (JStr c)) ch1.(conclusions) then ch1
              else push_max ch1 (JStr c) k).
  assert (Hs2 : ch2.(steps) = (ch.(steps) ++ [RuleApplication name c k d])%list).
  { unfold ch2. destruct existsb; reflexivity. }
  destruct (IH c (ch2, bump_usage name us) (S d)) as [new1 [H1 F1]].
  exists (RuleApplication name c k d :: new1)%list. split.
  - change (fst (ch, us)) with ch.
    replace (if existsb (jsval_eqb (JStr c)) (conclusions ch) then _ else _) with ch2
      by (unfold ch2, ch1; reflexivity).
    rewrite H1. simpl. rewrite Hs2, <- app_assoc. reflexivity.
  - constructor.
    + exists name, c, k, d. split; [reflexivity|lia].
    + eapply Forall_impl; [|exact F1].
      intros s [n0 [c0 [k0 [dd [-> Hd]]]]]. exists n0, c0, k0, dd. split; [reflexivity|lia].
Qed.

(** Claim C5: for every rule set (self-referential rules included) and
    every query, [applyRules] from depth 0 with [maxDepth = D] terminates
    by its depth test (more fuel than the test allows changes nothing),
    and no rule is applied at a recursion depth of [D] or more: every
    step it records is a rule application at a depth below [D]. *)
Theorem applyRules_depth_bound (rs : list (string * rule)) (q : string) (ch : chain)
    (us : list (string * rule)) (D : nat) :
  (forall k, applyRules_fuel (S D + k) rs q (ch, us) 0 D = applyRules rs q (ch, us) 0 D) /\
  exists new,
    (fst (applyRules rs q (ch, us) 0 D)).(steps) = (ch.(steps) ++ new)%list /\
    Forall (fun s => exists n c k dd, s = RuleApplication n c k dd /\ (dd < D)%nat) new.
Proof.
  split.
  - intro k. unfold applyRules. apply applyRules_fuel_enough; lia.
  - destruct (applyRules_fuel_steps (S (D - 0)) rs q (ch, us) 0 D) as [new [H F]].
    exists new. split; [exact H|].
    eapply Forall_impl; [|exact F].
    intros s [n [c [k [dd [-> Hd]]]]]. exists n, c, k, dd. split; [reflexivity|lia].
Qed.

(** ** [calculateRelevance] *)

Lemma split_space_aux_nonempty (cur s : string) : (1 <= List.length (split_space_aux cur s))%nat.
Proof.
  revert cur. induction s as [|c s IH]; intro cur; simpl; [lia|].
  destruct (Ascii.eqb c " "%char); simpl; [lia|apply IH].
Qed.

Lemma split_space_nonempty (s : string) : (1 <= List.length (split_space s))%nat.
Proof. apply split_space_aux_nonempty. Qed.

Lemma filter_length_le' {A} (f : A -> bool) (l : list A) :
  (List.length (filter f l) <= List.length l)%nat.
Proof.
  induction l as [|x l IH]; simpl; [lia|]. destruct (f x); simpl; lia.
Qed.

Lemma ratio_bounds (a b : nat) : (a <= b)%nat -> (1 <= b)%nat ->
  0 <= inject_Z (Z.of_nat a) / inject_Z (Z.of_nat b) <= 1.
Proof.
  intros Hab Hb.
  assert (Ha0 : 0 <= inject_Z (Z.of_nat a)) by (change 0 with (inject_Z 0); rewrite <- Zle_Qle; lia).
  assert (Hb0 : 0 < inject_Z (Z.of_nat b)) by (change 0 with (inject_Z 0); rewrite <- Zlt_Qlt; lia).
  assert (Hle : inject_Z (Z.of_nat a) <= inject_Z (Z.of_nat b)) by (rewrite <- Zle_Qle; lia).
  split.
  - apply Qle_shift_div_l; [exact Hb0|]. lra.
  - apply Qle_shift_div_r; [exact Hb0|]. lra.
Qed.

Lemma relevance_bounds (q c : jsval) : 0 <= calculateRelevance q c <= 1.
Proof.
  destruct q as [qs| | | |]; destruct c as [cs| | | |]; simpl; try (split; lra).
  set (qt := split_space (toLowerCase qs)).
  set (ct := split_space (toLowerCase cs)).
  pose proof (ratio_bounds _ _ (filter_length_le' (fun token => existsb (fun cToken =>
     includes cToken token || includes token cToken) ct) qt) (split_space_nonempty _)) as [H0 H1].
  destruct (includes (toLowerCase cs) (toLowerCase qs)).
  - split.
    + apply Q.min_glb; lra.
    + apply Q.le_min_r.
  - split; assumption.
Qed.

(** Claim C6, as amended: for two strings, [calculateRelevance] splits
    both lowercased strings at each single space into token lists; each
    query token is a match exactly when some content token contains it
    as a substring or is contained in it; the similarity is the number of
    matches over the number of query tokens, and the score is
    [min(similarity + 0.5, 1)] when the lowercased content contains the
    lowercased query as a substring, the similarity otherwise. The split
    always yields at least one token, so the empty query is one empty
    token, contained in every content token, and scores 1 against any
    string. The result lies in [[0,1]] and is 0 when either input is not
    a string. *)
Theorem relevance_range :
  (forall q c,
     let queryTokens := split_space (toLowerCase q) in
     let contentTokens := split_space (toLowerCase c) in
     exists isMatch : list bool,
       Forall2 (fun token b => b = true <->
                  exists cToken, In cToken contentTokens /\
                    (contains_substring cToken token \/ contains_substring token cToken))
               queryTokens isMatch /\
       let similarity := inject_Z (Z.of_nat (count_occ Bool.bool_dec isMatch true)) /
                         inject_Z (Z.of_nat (List.length queryTokens)) in
       (contains_substring (toLowerCase c) (toLowerCase q) ->
          calculateRelevance (JStr q) (JStr c) = Qmin (similarity + (1#2)) 1) /\
       (~ contains_substring (toLowerCase c) (toLowerCase q) ->
          calculateRelevance (JStr q) (JStr c) = similarity)) /\
  (forall q c, 0 <= calculateRelevance q c <= 1) /\
  (forall q c, match q, c with
               | JStr _, JStr _ => True
               | _, _ => calculateRelevance q c = 0
               end) /\
  (forall s, (1 <= List.length (split_space s))%nat) /\
  (forall c, calculateRelevance (JStr "") (JStr c) == 1).
Proof.
  split.
  { intros q c. cbv zeta.
    set (ct := split_space (toLowerCase c)).
    set (hit := fun token => existsb (fun cToken => includes cToken token || includes token cToken) ct).
    exists (map hit (split_space (toLowerCase q))). split.
    - induction (split_space (toLowerCase q)) as [|t qt IH]; simpl; constructor; [|exact IH].
      apply token_hit_iff.
    - rewrite count_occ_map_filter. unfold calculateRelevance. fold ct. fold hit.
      split; intros H.
      + apply includes_iff in H. rewrite H. reflexivity.
      + destruct (includes (toLowerCase c) (toLowerCase q)) eqn:E; [|reflexivity].
        apply includes_iff in E. contradiction. }
  split; [exact relevance_bounds|].
  split; [intros [] []; reflexivity|].
  split; [exact split_space_nonempty|].
  intro c. unfold calculateRelevance. simpl toLowerCase.
  set (ct := split_space (toLowerCase c)).
  assert (Hex : existsb (fun cToken => includes cToken "" || includes "" cToken) ct = true).
  { pose proof (split_space_nonempty (toLowerCase c)) as Hn. fold ct in Hn.
    destruct ct as [|x ct']; simpl in Hn; [lia|]. simpl. rewrite includes_empty. reflexivity. }
  unfold split_space at 1. simpl split_space_aux. simpl filter. rewrite Hex.
  rewrite includes_empty. apply Qeq_bool_iff. vm_compute. reflexivity.
Qed.

(** ** Association-list maps *)
Section MapFacts.
Context {V : Type}.

Lemma map_get_set (k k' : string) (v : V) (l : list (string * V)) :
  map_get k' (map_set k v l) = if String.eqb k' k then Some v else map_get k' l.
Proof.
  induction l as [|[k0 v0] l IH]; simpl.
  - reflexivity.
  - destruct (String.eqb_spec k k0) as [->|Hne]; simpl.
    + destruct (String.eqb k' k0); reflexivity.
    + rewrite IH. destruct (String.eqb_spec k' k0) as [E1|E1];
        destruct (String.eqb_spec k' k) as [E2|E2]; subst; congruence.
Qed.

Lemma map_set_keys_in (k x : string) (v : V) (l : list (string * V)) :
  In x (map fst (map_set k v l)) <-> x = k \/ In x (map fst l).
Proof.
  induction l as [|[k0 v0] l IH]; simpl.
  - split; intros H; repeat destruct H as [H|H]; subst; auto.
  - destruct (String.eqb_spec k k0) as [->|Hne]; simpl;
      [|rewrite IH]; split; intros H; repeat destruct H as [H|H]; subst; auto.
Qed.

Lemma map_set_nodup (k : string) (v : V) (l : list (string * V)) :
  NoDup (map fst l) -> NoDup (map fst (map_set k v l)).
Proof.
  induction l as [|[k0 v0] l IH]; simpl; intro Hnd.
  - repeat constructor. intros [].
  - inversion Hnd as [|? ? Hni Hnd']; subst.
    destruct (String.eqb_spec k k0) as [->|Hne]; simpl; [exact Hnd|].
    constructor; [|apply IH, Hnd']. rewrite map_set_keys_in. intuition.
Qed.

Lemma map_set_length (k : string) (v : V) (l : list (string * V)) :
  (List.length (map_set k v l) <= S (List.length l))%nat.
Proof.
  induction l as [|[k0 v0] l IH]; simpl; [lia|].
  destruct (String.eqb k k0); simpl; lia.
Qed.

Lemma map_set_present_keys (k : string) (v : V) (l : list (string * V)) :
  map_get k l <> None -> map fst (map_set k v l) = map fst l.
Proof.
  induction l as [|[k0 v0] l IH]; simpl; intro H; [congruence|].
  destruct (String.eqb_spec k k0) as [->|]; simpl; [reflexivity|].
  rewrite IH by exact H. reflexivity.
Qed.

Lemma map_get_none_set (k : string) (v : V) (l : list (string * V)) :
  map_get k l = None -> map_set k v l = (l ++ [(k, v)])%list.
Proof.
  induction l as [|[k0 v0] l IH]; simpl; intro H; [reflexivity|].
  destruct (String.eqb k k0); [discriminate|]. rewrite IH by exact H. reflexivity.
Qed.

Lemma map_get_app_last (k : string) (v : V) (l : list (string * V)) :
  map_get k l = None -> map_get k (l ++ [(k, v)])%list = Some v.
Proof.
  induction l as [|[k0 v0] l IH]; simpl; intro H.
  - rewrite String.eqb_refl. reflexivity.
  - destruct (String.eqb k k0); [discriminate|]. apply IH, H.
Qed.

Lemma map_set_app_last (k : string) (v v' : V) (l : list (string * V)) :
  map_get k l = None -> map_set k v' (l ++ [(k, v)])%list = (l ++ [(k, v')])%list.
Proof.
  induction l as [|[k0 v0] l IH]; simpl; intro H.
  - rewrite String.eqb_refl. reflexivity.
  - destruct (String.eqb k k0); [discriminate|]. rewrite IH by exact H. reflexivity.
Qed.

Lemma map_get_In (k : string) (v : V) (l : list (string * V)) :
  map_get k l = Some v -> In (k, v) l.
Proof.
  induction l as [|[k0 v0] l IH]; simpl; intro H; [discriminate|].
  destruct (String.eqb_spec k k0) as [->|]; [injection H as ->; left; reflexivity|].
  right. apply IH, H.
Qed.

Lemma In_map_get (k : string) (v : V) (l : list (string * V)) :
  NoDup (map fst l) -> In (k, v) l -> map_get k l = Some v.
Proof.
  induction l as [|[k0 v0] l IH]; simpl; intros Hnd H; [destruct H|].
  inversion Hnd as [|? ? Hni Hnd']; subst.
  destruct H as [H|H].
  - injection H as -> ->. rewrite String.eqb_refl. reflexivity.
  - destruct (String.eqb_spec k k0) as [->|]; [|apply IH; assumption].
    exfalso. apply Hni. apply (in_map fst) in H. exact H.
Qed.

Lemma map_delete_keys_in (k x : string) (l : list (string * V)) :
  NoDup (map fst l) -> In x (map fst (map_delete k l)) <-> In x (map fst l) /\ x <> k.
Proof.
  induction l as [|[k0 v0] l IH]; simpl; intro Hnd; [tauto|].
  inversion Hnd as [|? ? Hni Hnd']; subst.
  destruct (String.eqb_spec k k0) as [->|Hne]; simpl.
  - split; [intro H; split; [right; exact H|intros ->; contradiction]|].
    intros [[H|H] Hx]; [congruence|exact H].
  - rewrite IH by exact Hnd'. split.
    + intros [H|[H1 H2]]; split; [left; exact H|congruence|right; exact H1|exact H2].
    + intros [[H|H] Hx]; [left; exact H|right; split; assumption].
Qed.

Lemma map_delete_nodup (k : string) (l : list (string * V)) :
  NoDup (map fst l) -> NoDup (map fst (map_delete k l)).
Proof.
  induction l as [|[k0 v0] l IH]; simpl; intro Hnd; [constructor|].
  inversion Hnd as [|? ? Hni Hnd']; subst.
  destruct (String.eqb k k0); [exact Hnd'|]. simpl. constructor; [|apply IH, Hnd'].
  rewrite map_delete_keys_in by exact Hnd'. tauto.
Qed.

Lemma map_delete_length (k : string) (l : list (string * V)) :
  In k (map fst l) -> S (List.length (map_delete k l)) = List.length l.
Proof.
  induction l as [|[k0 v0] l IH]; simpl; intro H; [destruct H|].
  destruct (String.eqb_spec k k0) as [->|Hne]; [reflexivity|].
  simpl. rewrite IH; [reflexivity|]. destruct H; [congruence|assumption].
Qed.

Lemma map_get_delete_neq (k k' : string) (l : list (string * V)) :
  k' <> k -> map_get k' (map_delete k l) = map_get k' l.
Proof.
  intro Hne. induction l as [|[k0 v0] l IH]; simpl; [reflexivity|].
  destruct (String.eqb_spec k k0) as [->|]; simpl.
  - apply String.eqb_neq in Hne. rewrite Hne. reflexivity.
  - rewrite IH. reflexivity.
Qed.

Lemma map_get_delete_same (k : string) (l : list (string * V)) :
  NoDup (map fst l) -> map_get k (map_delete k l) = None.
Proof.
  induction l as [|[k0 v0] l IH]; simpl; intro Hnd; [reflexivity|].
  inversion Hnd as [|? ? Hni Hnd']; subst.
  destruct (String.eqb_spec k k0) as [->|Hne]; simpl.
  - destruct (map_get k0 l) eqn:E; [|reflexivity].
    exfalso. apply Hni. apply map_get_In in E. apply (in_map fst) in E. exact E.
  - apply String.eqb_neq in Hne. rewrite Hne. apply IH, Hnd'.
Qed.

(** Deleting distinct present keys one by one removes that many entries. *)
Lemma fold_delete_length {W} (ks : list (string * W)) (l : list (string * V)) :
  NoDup (map fst l) -> NoDup (map fst ks) -> incl (map fst ks) (map fst l) ->
  NoDup (map fst (fold_left (fun l '(k, _) => map_delete k l) ks l)) /\
  (List.length (fold_left (fun l '(k, _) => map_delete k l) ks l) + List.length ks
   = List.length l)%nat.
Proof.
  revert l. induction ks as [|[k w] ks IH]; simpl; intros l Hnd Hks Hincl.
  - split; [exact Hnd|lia].
  - inversion Hks as [|? ? Hni Hks']; subst.
    assert (Hk : In k (map fst l)) by (apply Hincl; left; reflexivity).
    destruct (IH (map_delete k l)) as [H1 H2].
    + apply map_delete_nodup, Hnd.
    + exact Hks'.
    + intros x Hx. apply map_delete_keys_in; [exact Hnd|]. split.
      * apply Hincl. right. exact Hx.
      * intros ->. contradiction.
    + split; [exact H1|]. rewrite <- (map_delete_length k l Hk). lia.
Qed.
End MapFacts.

(** ** Capacities *)

Lemma NoDup_firstn' {A} (n : nat) (l : list A) : NoDup l -> NoDup (firstn n l).
Proof.
  intro H. rewrite <- (firstn_skipn n l) in H. exact (NoDup_app_remove_r _ _ H).
Qed.

Lemma incl_firstn' {A} (n : nat) (l : list A) : incl (firstn n l) l.
Proof.
  intros x Hx. rewrite <- (firstn_skipn n l). apply in_or_app. left. exact Hx.
Qed.

Lemma fold_delete_key (ks : list (string * ltItem)) (m : Memory) :
  let m' := fold_left (fun m '(key, _) => delete_key m key) ks m in
  m'.(longTerm) = fold_left (fun l '(k, _) => map_delete k l) ks m.(longTerm) /\
  m'.(shortTerm) = m.(shortTerm) /\ m'.(episodic) = m.(episodic) /\ same_caps m m'.
Proof.
  cbv zeta. unfold same_caps. revert m.
  induction ks as [|[k w] ks IH]; intro m.
  - repeat split.
  - cbn [fold_left].
    destruct (IH (delete_key m k)) as (H1 & H2 & H3 & H4 & H5 & H6).
    rewrite H1, H2, H3, H4, H5, H6. repeat split.
Qed.

Lemma Qceiling_nonneg (c : Q) : 0 <= c -> (0 <= Qceiling c)%Z.
Proof.
  intro H. change 0%Z with (Qceiling 0). apply Qceiling_resp_le, H.
Qed.

Lemma len_Q_ceiling {A} (l : list A) (c : Q) :
  len_Q l <= c -> (Z.of_nat (List.length l) <= Qceiling c)%Z.
Proof.
  intro H. rewrite Zle_Qle. eapply Qle_trans; [exact H|apply Qle_ceiling].
Qed.

Lemma len_Q_eq {A B} (l : list A) (l' : list B) :
  List.length l' = List.length l -> len_Q l' = len_Q l.
Proof. intro H. unfold len_Q. rewrite H. reflexivity. Qed.

Lemma len_Q_S {A B} (l : list A) (l' : list B) :
  List.length l' = S (List.length l) -> len_Q l' == len_Q l + 1.
Proof.
  intro H. unfold len_Q. rewrite H, Nat2Z.inj_succ, <- Z.add_1_r, inject_Z_plus.
  reflexivity.
Qed.

(** Over capacity, [slice(0, size - capacity)] keeps the first
    [size - ceil(capacity)] entries. *)
Lemma slice_count (n : nat) (c : Q) :
  0 <= c -> c < inject_Z (Z.of_nat n) ->
  trunc (inject_Z (Z.of_nat n) - c) = (Z.of_nat n - Qceiling c)%Z /\
  (0 <= Qceiling c <= Z.of_nat n)%Z.
Proof.
  intros H0 Hlt.
  assert (Hx : 0 <= inject_Z (Z.of_nat n) - c) by lra.
  unfold trunc. rewrite (proj2 (Qle_bool_iff _ _) Hx).
  pose proof (Qfloor_le (inject_Z (Z.of_nat n) - c)) as F1.
  pose proof (Qlt_floor (inject_Z (Z.of_nat n) - c)) as F2.
  pose proof (Qle_ceiling c) as G1.
  pose proof (Qceiling_lt c) as G2.
  set (f := Qfloor _) in *. set (g := Qceiling c) in *.
  rewrite inject_Z_plus in F2. unfold Z.sub in G2. rewrite inject_Z_plus, inject_Z_opp in G2.
  assert (A1 : (g - 1 < Z.of_nat n - f)%Z).
  { rewrite Zlt_Qlt. unfold Z.sub. rewrite !inject_Z_plus, !inject_Z_opp. lra. }
  assert (A2 : (Z.of_nat n - f - 1 < g)%Z).
  { rewrite Zlt_Qlt. unfold Z.sub. rewrite !inject_Z_plus, !inject_Z_opp. lra. }
  assert (Hg0 : (0 <= g)%Z) by (apply Qceiling_nonneg, H0).
  assert (Hgn : (g <= Z.of_nat n)%Z).
  { unfold g. rewrite <- (Qceiling_Z (Z.of_nat n)). apply Qceiling_resp_le. lra. }
  split; lia.
Qed.

Lemma manage_below (m : Memory) :
  len_Q m.(longTerm) <= m.(longTermCapacity) -> manageLongTermCapacity m = m.
Proof.
  intro H. unfold manageLongTermCapacity. apply Qle_bool_iff in H. rewrite H. reflexivity.
Qed.

(** Less than one entry over capacity, [slice(0, size - capacity)] is
    empty: nothing is evicted. *)
Lemma manage_noop (m : Memory) :
  len_Q m.(longTerm) < m.(longTermCapacity) + 1 -> manageLongTermCapacity m = m.
Proof.
  intro H. unfold manageLongTermCapacity.
  destruct (Qle_bool (len_Q m.(longTerm)) m.(longTermCapacity)) eqn:E; [reflexivity|].
  assert (Hgt : m.(longTermCapacity) < len_Q m.(longTerm)).
  { apply Qnot_le_lt. intro Hle. apply Qle_bool_iff in Hle. congruence. }
  cbv zeta. unfold slice_to, trunc.
  rewrite (proj2 (Qle_bool_iff 0 (len_Q m.(longTerm) - m.(longTermCapacity)))) by lra.
  pose proof (Qfloor_le (len_Q m.(longTerm) - m.(longTermCapacity))) as F1.
  pose proof (Qlt_floor (len_Q m.(longTerm) - m.(longTermCapacity))) as F2.
  set (f := Qfloor _) in *.
  rewrite inject_Z_plus in F2.
  assert (Hf : f = 0%Z).
  { change (inject_Z 1) with 1 in F2.
    assert (A1 : (f < 1)%Z) by (rewrite Zlt_Qlt; change (inject_Z 1) with 1; lra).
    assert (A2 : (-1 < f)%Z) by (rewrite Zlt_Qlt; change (inject_Z (-1)) with (-1); lra).
    lia. }
  rewrite Hf. reflexivity.
Qed.

(** Over capacity, [manageLongTermCapacity] deletes the first
    [size - ceil(capacity)] entries of the sorted array. *)
Lemma manage_over (m : Memory) :
  0 <= m.(longTermCapacity) -> m.(longTermCapacity) < len_Q m.(longTerm) ->
  exists n, manageLongTermCapacity m =
    fold_left (fun m '(key, _) => delete_key m key)
              (firstn n (sort_by capacity_cmp m.(longTerm))) m /\
    (n <= List.length m.(longTerm))%nat /\
    (Z.of_nat (List.length m.(longTerm) - n) = Qceiling m.(longTermCapacity))%Z.
Proof.
  intros H0 Hgt. unfold manageLongTermCapacity.
  destruct (Qle_bool (len_Q m.(longTerm)) m.(longTermCapacity)) eqn:E.
  - apply Qle_bool_iff in E. exfalso. apply (Qlt_not_le _ _ Hgt E).
  - cbv zeta. unfold len_Q in *. destruct (slice_count _ _ H0 Hgt) as [Ht Hg].
    unfold slice_to. rewrite Ht.
    rewrite (proj2 (Z.ltb_ge _ _)) by lia.
    exists (Z.to_nat (Z.of_nat (List.length m.(longTerm)) - Qceiling m.(longTermCapacity))).
    split; [reflexivity|]. split; lia.
Qed.

(** [manageLongTermCapacity] brings the long-term store within its
    capacity rounded up and touches no other tier. *)
Lemma manage_spec (m : Memory) :
  NoDup (map fst m.(longTerm)) -> 0 <= m.(longTermCapacity) ->
  let m' := manageLongTermCapacity m in
  NoDup (map fst m'.(longTerm)) /\
  (Z.of_nat (List.length m'.(longTerm)) <= Qceiling m.(longTermCapacity))%Z /\
  m'.(shortTerm) = m.(shortTerm) /\ m'.(episodic) = m.(episodic) /\ same_caps m m'.
Proof.
  intros Hnd H0. cbv zeta.
  destruct (Qlt_le_dec m.(longTermCapacity) (len_Q m.(longTerm))) as [Hgt|Hle].
  - destruct (manage_over m H0 Hgt) as (n & -> & Hn & Hc).
    set (ks := firstn n _).
    destruct (fold_delete_key ks m) as (H1 & H2 & H3 & H4).
    rewrite H1, H2, H3.
    assert (Hperm : Permutation (map fst m.(longTerm))
                                (map fst (sort_by capacity_cmp m.(longTerm))))
      by (apply Permutation_map, sort_by_perm).
    assert (Hks : map fst ks = firstn n (map fst (sort_by capacity_cmp m.(longTerm))))
      by (unfold ks; rewrite firstn_map; reflexivity).
    assert (Hkl : List.length ks = n).
    { unfold ks. apply firstn_length_le.
      rewrite <- (Permutation_length (sort_by_perm capacity_cmp _)). lia. }
    destruct (fold_delete_length ks m.(longTerm) Hnd) as [Hnd' Hlen].
    + rewrite Hks. apply NoDup_firstn'. eapply Permutation_NoDup; eassumption.
    + rewrite Hks. intros x Hx. apply incl_firstn' in Hx.
      eapply Permutation_in; [symmetry; exact Hperm|exact Hx].
    + unfold same_caps in *. repeat split; try tauto. lia.
  - rewrite manage_below by exact Hle. unfold same_caps.
    repeat split; auto. apply len_Q_ceiling, Hle.
Qed.

Lemma addToLongTerm_inv (m : Memory) key value importance now :
  cap_inv m ->
  let m' := fst (addToLongTerm m key value importance now) in
  cap_inv m' /\ m'.(shortTerm) = m.(shortTerm) /\ m'.(episodic) = m.(episodic) /\
  same_caps m m'.
Proof.
  intros (Hnd & H0 & Hst & Hlt & Hep). cbv zeta. unfold addToLongTerm. cbn [fst].
  match goal with |- context [manageLongTermCapacity ?m2] =>
    destruct (manage_spec m2) as (H1 & H2 & H3 & H4 & H5 & H6 & H7) end.
  - apply map_set_nodup, Hnd.
  - exact H0.
  - unfold cap_inv, same_caps in *. simpl in *.
    rewrite H3, H4, H5, H6, H7. repeat split; assumption.
Qed.

Lemma consolidate_inv (m : Memory) item now :
  cap_inv m ->
  let m' := consolidateToLongTerm m item now in
  cap_inv m' /\ m'.(shortTerm) = m.(shortTerm) /\ m'.(episodic) = m.(episodic) /\
  same_caps m m'.
Proof.
  intros Hinv. cbv zeta. unfold consolidateToLongTerm.
  set (key := "consolidated_" ++ st_id item).
  destruct (addToLongTerm_inv m key (st_content item) (st_importance item) now Hinv)
    as (Hinv1 & H1 & H2 & H3).
  set (m1 := fst (addToLongTerm _ _ _ _ _)) in *.
  destruct (map_get key (longTerm m1)) as [it|] eqn:E; [|auto].
  assert (Hk : map fst (map_set key (mark_consolidated it) (longTerm m1)) = map fst (longTerm m1))
    by (apply map_set_present_keys; congruence).
  destruct Hinv1 as (Hnd & H0 & Hst & Hlt & Hep).
  unfold cap_inv, same_caps in *. simpl.
  rewrite Hk. rewrite <- (length_map fst (map_set _ _ _)), Hk, length_map.
  repeat split; assumption || congruence || tauto.
Qed.

Lemma generateId_fields (m : Memory) :
  let m0 := snd (generateId m) in
  m0.(shortTerm) = m.(shortTerm) /\ m0.(longTerm) = m.(longTerm) /\
  m0.(episodic) = m.(episodic) /\ same_caps m m0.
Proof. repeat split. Qed.

Lemma same_caps_trans (m1 m2 m3 : Memory) :
  same_caps m1 m2 -> same_caps m2 m3 -> same_caps m1 m3.
Proof. unfold same_caps. intros (? & ? & ?) (? & ? & ?). repeat split; congruence. Qed.

Lemma addToShortTerm_inv (m : Memory) item now :
  cap_inv m ->
  cap_inv (fst (addToShortTerm m item now)) /\ same_caps m (fst (addToShortTerm m item now)).
Proof.
  intros Hinv. unfold addToShortTerm.
  pose proof (generateId_fields m) as Hg. cbv zeta in Hg.
  destruct (generateId m) as [id m0]. cbn [snd] in Hg.
  destruct Hg as (Hst0 & Hlt0 & Hep0 & Hc0).
  destruct Hinv as (Hnd & H0 & Hst & Hlt & Hep).
  pose proof Hc0 as (Hc1 & Hc2 & Hc3).
  remember (m0.(shortTerm) ++ [mkSt item now (calculateImportance item) id])%list as st eqn:Est.
  assert (Hlen : List.length st = S (List.length m0.(shortTerm)))
    by (subst st; rewrite length_app; simpl; lia).
  destruct (Qltb (shortTermCapacity m0) (len_Q st)) eqn:Ecap.
  - destruct st as [|removed rest]; [discriminate Hlen|].
    assert (Hinv1 : cap_inv (set_shortTerm m0 rest)).
    { unfold cap_inv; simpl. rewrite Hlt0, Hep0. rewrite Hc1, Hc2, Hc3.
      simpl in Hlen. injection Hlen as Hlen.
      rewrite (len_Q_eq (shortTerm m0) rest Hlen), Hst0.
      repeat split; assumption. }
    assert (Hc1' : same_caps m (set_shortTerm m0 rest)) by exact Hc0.
    destruct (Qltb (7#10) (st_importance removed)); cbn [fst].
    + destruct (consolidate_inv _ removed now Hinv1) as (H1 & _ & _ & H2).
      split; [exact H1|]. eapply same_caps_trans; eassumption.
    + split; assumption.
  - cbn [fst]. split; [|exact Hc0]. apply Qltb_false in Ecap.
    unfold cap_inv; simpl. rewrite Hlt0, Hep0. rewrite Hc1, Hc2, Hc3 in *.
    repeat split; assumption.
Qed.

Lemma addEpisodicMemory_inv (m : Memory) event now :
  cap_inv m ->
  match addEpisodicMemory m event now with
  | Ok (m', _) => cap_inv m' /\ same_caps m m'
  | Err _ => True
  end.
Proof.
  intros Hinv. unfold addEpisodicMemory.
  destruct (analyzeEmotionalContext event) as [emotions|e]; [|exact I].
  pose proof (generateId_fields m) as Hg. cbv zeta in Hg.
  destruct (generateId m) as [id m0]. cbn [snd] in Hg.
  destruct Hg as (Hst0 & Hlt0 & Hep0 & Hc0).
  destruct Hinv as (Hnd & H0 & Hst & Hlt & Hep).
  pose proof Hc0 as (Hc1 & Hc2 & Hc3).
  remember (m0.(episodic) ++ [_])%list as eps eqn:Eeps.
  assert (Hlen : List.length eps = S (List.length m0.(episodic)))
    by (subst eps; rewrite length_app; simpl; lia).
  destruct (Qltb (episodicCapacity m0) (len_Q eps)) eqn:Ecap;
    (split; [|exact Hc0]); unfold cap_inv; simpl; rewrite Hst0, Hlt0;
    rewrite Hc1, Hc2, Hc3.
  - destruct eps as [|x rest]; [discriminate Hlen|]. simpl in Hlen |- *. injection Hlen as Hlen.
    rewrite (len_Q_eq (episodic m0) rest Hlen), Hep0. repeat split; assumption.
  - apply Qltb_false in Ecap. rewrite Hc3 in Ecap. repeat split; assumption.
Qed.

Lemma run_op_inv (m : Memory) (o : op) :
  cap_inv m -> cap_inv (run_op m o) /\ same_caps m (run_op m o).
Proof.
  intros Hinv. destruct o as [item now|key value importance now|event now]; simpl.
  - apply addToShortTerm_inv, Hinv.
  - destruct (addToLongTerm_inv m key value importance now Hinv) as (H1 & _ & _ & H2).
    split; assumption.
  - pose proof (addEpisodicMemory_inv m event now Hinv) as H.
    destruct (addEpisodicMemory m event now) as [[m' id]|e]; [exact H|].
    split; [exact Hinv|repeat split].
Qed.

Lemma run_ops_inv (m : Memory) (os : list op) :
  cap_inv m -> cap_inv (run_ops m os) /\ same_caps m (run_ops m os).
Proof.
  unfold run_ops. revert m. induction os as [|o os IH]; intros m Hinv; simpl.
  - split; [exact Hinv|repeat split].
  - destruct (run_op_inv m o Hinv) as [H1 H2].
    destruct (IH _ H1) as [H3 H4]. split; [exact H3|].
    eapply same_caps_trans; eassumption.
Qed.

Lemma or_default_nonneg (o : option Q) (d : Q) :
  nonneg_opt o -> 0 <= d -> 0 <= or_default o d.
Proof.
  destruct o as [c|]; simpl; [|auto]. intros Hc Hd. destruct (Qeq_bool c 0); assumption.
Qed.

(** Claim C1, as amended: for every configuration whose capacities are
    absent or numbers [>= 0], and every finite sequence of
    [addToShortTerm], [addToLongTerm] and [addEpisodicMemory] calls (a
    call that throws leaves the object unchanged), the short-term buffer
    and the episodic log are at most their effective capacity, and the
    long-term store at most its effective capacity rounded up to an
    integer. The effective capacity is the configured value when it is
    a nonzero number, the default 10, 1000 or 500 when it is absent or 0
    (the constructor's [config.x || default]). *)
Theorem capacity_invariant (cfg : config) (os : list op) :
  nonneg_opt cfg.(cfg_shortTermCapacity) -> nonneg_opt cfg.(cfg_longTermCapacity) ->
  nonneg_opt cfg.(cfg_episodicCapacity) ->
  let m := run_ops (new_Memory cfg) os in
  len_Q m.(shortTerm) <= or_default cfg.(cfg_shortTermCapacity) 10 /\
  (Z.of_nat (List.length m.(longTerm))
     <= Qceiling (or_default cfg.(cfg_longTermCapacity) 1000))%Z /\
  len_Q m.(episodic) <= or_default cfg.(cfg_episodicCapacity) 500.
Proof.
  intros Hs Hl He. cbv zeta.
  pose proof (or_default_nonneg _ 10 Hs ltac:(discriminate)) as Ns.
  pose proof (or_default_nonneg _ 1000 Hl ltac:(discriminate)) as Nl.
  pose proof (or_default_nonneg _ 500 He ltac:(discriminate)) as Ne.
  assert (H0 : cap_inv (new_Memory cfg)).
  { repeat split; simpl; try constructor; try assumption.
    apply Qceiling_nonneg, Nl. }
  destruct (run_ops_inv _ os H0) as ((_ & _ & H1 & H2 & H3) & (C1 & C2 & C3)).
  rewrite C1 in H1. rewrite C2 in H2. rewrite C3 in H3.
  simpl in H1, H2, H3. repeat split; assumption.
Qed.

(** [capacity_invariant] with capacities 2.5, 2.5 and 1.5, after short-term,
    long-term and episodic insertions (one of them throwing). *)
Lemma capacity_invariant_witness :
  let cfg := mkConfig (Some (5#2)) (Some (5#2)) (Some (3#2)) in
  let m := run_ops (new_Memory cfg)
             [AddShortTerm (JStr "a") 0; AddShortTerm (JStr "important b") 1;
              AddShortTerm (JStr "c") 2; AddShortTerm (JStr "d") 3;
              AddLongTerm "x" (JStr "x") (1#2) 4; AddLongTerm "y" (JStr "y") (1#2) 5;
              AddLongTerm "z" (JStr "z") (1#2) 6; AddLongTerm "w" (JStr "w") (1#2) 7;
              AddEpisodic (JStr "e1") 8; AddEpisodic JObj 9; AddEpisodic (JStr "e2") 10;
              AddEpisodic (JStr "e3") 11] in
  len_Q m.(shortTerm) <= or_default cfg.(cfg_shortTermCapacity) 10 /\
  (Z.of_nat (List.length m.(longTerm))
     <= Qceiling (or_default cfg.(cfg_longTermCapacity) 1000))%Z /\
  len_Q m.(episodic) <= or_default cfg.(cfg_episodicCapacity) 500.
Proof.
  apply capacity_invariant; simpl; discriminate.
Defined.

(** Promoting an item whose key is new into a long-term store with room
    appends one consolidated entry. *)
Lemma consolidate_fresh (m : Memory) (it : stItem) (now : Z) :
  map_get ("consolidated_" ++ st_id it) m.(longTerm) = None ->
  len_Q m.(longTerm) < m.(longTermCapacity) ->
  let m' := consolidateToLongTerm m it now in
  m'.(shortTerm) = m.(shortTerm) /\
  m'.(longTerm) = (m.(longTerm) ++ [(("consolidated_" ++ st_id it)%string,
                     mkLt it.(st_content) it.(st_importance) now 0 now true)])%list.
Proof.
  intros Hnew Hlt. cbv zeta. unfold consolidateToLongTerm, addToLongTerm. cbn [fst].
  rewrite manage_noop.
  2:{ simpl. rewrite (map_get_none_set _ _ _ Hnew).
      rewrite (len_Q_S m.(longTerm)) by (rewrite length_app; simpl; lia). lra. }
  simpl. rewrite (map_get_none_set _ _ _ Hnew), (map_get_app_last _ _ _ Hnew).
  simpl. rewrite (map_set_app_last _ _ _ _ Hnew). split; reflexivity.
Qed.

(** Claim C2, as amended: when the short-term buffer [old :: rest] is at
    capacity, the long-term store has room and holds no entry under the
    key ["consolidated_" ++ id] of the oldest item, one further
    [addToShortTerm] evicts exactly the oldest item; if its importance is
    above 0.7 the long-term store gains exactly one entry, consolidated,
    at the end, and otherwise the long-term store is unchanged. *)
Theorem promotion_below_capacity (m : Memory) (old : stItem) (rest : list stItem)
    (item : jsval) (now : Z) :
  m.(shortTerm) = old :: rest ->
  len_Q m.(shortTerm) == m.(shortTermCapacity) ->
  len_Q m.(longTerm) < m.(longTermCapacity) ->
  map_get ("consolidated_" ++ st_id old) m.(longTerm) = None ->
  let (m', id) := addToShortTerm m item now in
  m'.(shortTerm) = (rest ++ [mkSt item now (calculateImportance item) id])%list /\
  m'.(longTerm) =
    if Qltb (7#10) old.(st_importance)
    then (m.(longTerm) ++ [(("consolidated_" ++ st_id old)%string,
                            mkLt old.(st_content) old.(st_importance) now 0 now true)])%list
    else m.(longTerm).
Proof.
  intros Hst Hcap Hlt Hnew. unfold addToShortTerm, generateId. cbn [shortTerm shortTermCapacity].
  rewrite (proj2 (Qltb_spec _ _)).
  2:{ rewrite (len_Q_S m.(shortTerm)) by (rewrite length_app; simpl; lia). lra. }
  rewrite Hst. cbn [app].
  destruct (Qltb (7#10) (st_importance old)); cbn [fst]; [|split; reflexivity].
  match goal with |- context [consolidateToLongTerm ?m1 old now] =>
    destruct (consolidate_fresh m1 old now Hnew Hlt) as [E1 E2] end.
  rewrite E1, E2. split; reflexivity.
Qed.

Lemma promotion_below_capacity_witness :
  let (m', id) := addToShortTerm promotion_state (JStr "b") 1 in
  m'.(shortTerm) = ([] ++ [mkSt (JStr "b") 1 (calculateImportance (JStr "b")) id])%list /\
  m'.(longTerm) =
    if Qltb (7#10) (16#20)
    then (promotion_state.(longTerm) ++ [("consolidated_id0",
            mkLt (JStr "remember me") (16#20) 1 0 1 true)])%list
    else promotion_state.(longTerm).
Proof.
  apply (promotion_below_capacity promotion_state (mkSt (JStr "remember me") 0 (16#20) "id0") []);
    vm_compute; [reflexivity | reflexivity | reflexivity | reflexivity].
Defined.

(** ** [applyDecay] *)

Section DecayFacts.
Variable Math_exp : Q -> Q.

Lemma decay_entry_get (s : Memory) (now : Z) (k0 : string) (it0 : ltItem) (k : string) :
  NoDup (map fst s.(longTerm)) -> map_get k0 s.(longTerm) = Some it0 ->
  let s1 := decay_entry Math_exp now s (k0, it0) in
  NoDup (map fst s1.(longTerm)) /\ s1.(decayRate) = s.(decayRate) /\
  map_get k s1.(longTerm) =
    if String.eqb k k0 then decay_item Math_exp now s.(decayRate) it0
    else map_get k s.(longTerm).
Proof.
  intros Hnd Hget. cbv zeta. unfold decay_entry, decay_item.
  destruct (decayThreshold <? now - lt_lastAccess it0)%Z.
  - destruct (Qltb _ (1#10) && negb (lt_consolidated it0)).
    + simpl. split; [apply map_delete_nodup, Hnd|split; [reflexivity|]].
      destruct (String.eqb_spec k k0) as [->|Hne].
      * apply map_get_delete_same, Hnd.
      * apply map_get_delete_neq, Hne.
    + simpl. split; [apply map_set_nodup, Hnd|split; [reflexivity|]].
      rewrite map_get_set. reflexivity.
  - split; [exact Hnd|split; [reflexivity|]].
    destruct (String.eqb_spec k k0) as [->|]; [exact Hget|reflexivity].
Qed.

Lemma decay_fold_get (es : list (string * ltItem)) (s : Memory) (now : Z) :
  NoDup (map fst es) -> NoDup (map fst s.(longTerm)) ->
  (forall k it, In (k, it) es -> map_get k s.(longTerm) = Some it) ->
  let s' := fold_left (decay_entry Math_exp now) es s in
  NoDup (map fst s'.(longTerm)) /\ s'.(decayRate) = s.(decayRate) /\
  (forall k it, In (k, it) es ->
     map_get k s'.(longTerm) = decay_item Math_exp now s.(decayRate) it) /\
  (forall k, ~ In k (map fst es) -> map_get k s'.(longTerm) = map_get k s.(longTerm)).
Proof.
  cbv zeta. revert s.
  induction es as [|[k0 it0] es IH]; intros s Hes Hnd Hin; cbn [fold_left map In fst].
  - split; [exact Hnd|split; [reflexivity|split; [intros ? ? []|reflexivity]]].
  - inversion Hes as [|? ? Hni Hes']; subst.
    assert (H0 : map_get k0 s.(longTerm) = Some it0) by (apply Hin; left; reflexivity).
    pose proof (fun k => decay_entry_get s now k0 it0 k Hnd H0) as E.
    cbv zeta in E.
    destruct (E k0) as (Hnd1 & Hrate1 & _).
    destruct (IH (decay_entry Math_exp now s (k0, it0))) as (Hnd2 & Hrate2 & Hin2 & Hout2).
    + exact Hes'.
    + exact Hnd1.
    + intros k it Hk. destruct (E k) as (_ & _ & ->).
      destruct (String.eqb_spec k k0) as [->|]; [|apply Hin; right; exact Hk].
      exfalso. apply Hni. apply (in_map fst) in Hk. exact Hk.
    + rewrite Hrate1 in Hin2. split; [exact Hnd2|split; [congruence|split]].
      * intros k it [Hk|Hk].
        -- injection Hk as <- <-. rewrite Hout2 by exact Hni.
           destruct (E k0) as (_ & _ & ->). rewrite String.eqb_refl. reflexivity.
        -- apply Hin2, Hk.
      * intros k Hk. rewrite Hout2 by (intro; apply Hk; right; assumption).
        destruct (E k) as (_ & _ & ->).
        destruct (String.eqb_spec k k0) as [->|]; [|reflexivity].
        exfalso. apply Hk. left. reflexivity.
Qed.

(** One [applyDecay] call acts on each key by [decay_item]. *)
Lemma applyDecay_get (m : Memory) (now : Z) :
  NoDup (map fst m.(longTerm)) ->
  let m' := applyDecay Math_exp m now in
  NoDup (map fst m'.(longTerm)) /\ m'.(decayRate) = m.(decayRate) /\
  forall k, map_get k m'.(longTerm) =
    match map_get k m.(longTerm) with
    | Some it => decay_item Math_exp now m.(decayRate) it
    | None => None
    end.
Proof.
  intros Hnd. cbv zeta. unfold applyDecay.
  destruct (decay_fold_get m.(longTerm) m now Hnd Hnd) as (H1 & H2 & H3 & H4).
  - intros k it Hk. apply In_map_get; assumption.
  - split; [exact H1|split; [exact H2|]]. intro k.
    destruct (map_get k m.(longTerm)) as [it|] eqn:E.
    + apply H3, map_get_In, E.
    + rewrite H4; [exact E|]. intro Hk. apply in_map_iff in Hk as [[k' v] [Hk' Hkv]].
      simpl in Hk'. subst k'. rewrite (In_map_get _ _ _ Hnd Hkv) in E. discriminate.
Qed.

Hypothesis Math_exp_range : forall x, x <= 0 -> 0 <= Math_exp x <= 1.

Lemma decay_item_le (now : Z) (rate : Q) (it it' : ltItem) :
  0 <= rate -> (it.(lt_consolidated) = true -> 0 <= it.(lt_importance)) ->
  decay_item Math_exp now rate it = Some it' ->
  it'.(lt_importance) <= it.(lt_importance) /\
  it'.(lt_consolidated) = it.(lt_consolidated) /\
  (it'.(lt_consolidated) = true -> 0 <= it'.(lt_importance)).
Proof.
  intros Hrate Hcons. unfold decay_item.
  destruct (Z.ltb_spec decayThreshold (now - lt_lastAccess it)) as [Ht|Ht].
  - set (tsa := (now - lt_lastAccess it)%Z) in *.
    assert (Hq : 0 <= inject_Z tsa / inject_Z decayThreshold).
    { assert (0 < inject_Z decayThreshold) by (vm_compute; reflexivity).
      assert (0 <= inject_Z tsa).
      { change 0 with (inject_Z 0). rewrite <- Zle_Qle. unfold decayThreshold in Ht. lia. }
      apply Qle_shift_div_l; [assumption|]. rewrite Qmult_0_l. assumption. }
    assert (Hx : - (rate * (inject_Z tsa / inject_Z decayThreshold)) <= 0).
    { assert (0 <= rate * (inject_Z tsa / inject_Z decayThreshold))
        by (apply Qmult_le_0_compat; assumption).
      lra. }
    destruct (Math_exp_range _ Hx) as [Hf0 Hf1].
    set (f := Math_exp _) in *.
    destruct (lt_consolidated it) eqn:Ec.
    + rewrite andb_false_r. intro H. injection H as <-. simpl.
      specialize (Hcons eq_refl).
      split; [nra|split; [reflexivity|intros _; apply Qmult_le_0_compat; assumption]].
    + rewrite andb_true_r. destruct (Qltb _ (1#10)) eqn:El; [discriminate|].
      apply Qltb_false in El. intro H. injection H as <-. simpl.
      split; [|split; [reflexivity|discriminate]].
      destruct (Qlt_le_dec (lt_importance it) 0); nra.
  - intro H. injection H as <-. split; [apply Qle_refl|split; [reflexivity|exact Hcons]].
Qed.

(** Claim C10: under any [Math.exp] that maps non-positive arguments into
    [[0, 1]], with a non-negative decay rate, distinct long-term keys and
    non-negative importance for consolidated items, repeated
    [applyDecay] calls (at any times) never increase a long-term item's
    importance nor add a key: neither from one call to the next nor
    over the whole sequence; and at each call an item whose decayed
    importance is below 0.1 and that is not consolidated is removed. *)
Theorem applyDecay_monotone (m : Memory) (times : list Z) :
  0 <= m.(decayRate) -> NoDup (map fst m.(longTerm)) ->
  (forall k it, map_get k m.(longTerm) = Some it ->
     it.(lt_consolidated) = true -> 0 <= it.(lt_importance)) ->
  (forall k it', map_get k (fold_left (applyDecay Math_exp) times m).(longTerm) = Some it' ->
     exists it, map_get k m.(longTerm) = Some it /\
       it'.(lt_importance) <= it.(lt_importance) /\
       it'.(lt_consolidated) = it.(lt_consolidated)) /\
  (forall pre now post k it', times = (pre ++ now :: post)%list ->
     let mi := fold_left (applyDecay Math_exp) pre m in
     map_get k (applyDecay Math_exp mi now).(longTerm) = Some it' ->
     exists it, map_get k mi.(longTerm) = Some it /\
       it'.(lt_importance) <= it.(lt_importance) /\
       it'.(lt_consolidated) = it.(lt_consolidated)) /\
  (forall pre now post k it, times = (pre ++ now :: post)%list ->
     let mi := fold_left (applyDecay Math_exp) pre m in
     map_get k mi.(longTerm) = Some it ->
     (decayThreshold < now - it.(lt_lastAccess))%Z ->
     it.(lt_importance) * Math_exp (- (mi.(decayRate)
        * (inject_Z (now - it.(lt_lastAccess)) / inject_Z decayThreshold))) < 1#10 ->
     it.(lt_consolidated) = false ->
     map_get k (applyDecay Math_exp mi now).(longTerm) = None).
Proof.
  intros Hrate Hnd Hcons.
  (* The invariant kept by every call, with the pointwise comparison to [m]. *)
  assert (Hinv : forall ts m', 0 <= m'.(decayRate) -> NoDup (map fst m'.(longTerm)) ->
    (forall k it, map_get k m'.(longTerm) = Some it ->
       it.(lt_consolidated) = true -> 0 <= it.(lt_importance)) ->
    let m'' := fold_left (applyDecay Math_exp) ts m' in
    0 <= m''.(decayRate) /\ NoDup (map fst m''.(longTerm)) /\
    (forall k it', map_get k m''.(longTerm) = Some it' ->
       (it'.(lt_consolidated) = true -> 0 <= it'.(lt_importance)) /\
       exists it, map_get k m'.(longTerm) = Some it /\
         it'.(lt_importance) <= it.(lt_importance) /\
         it'.(lt_consolidated) = it.(lt_consolidated))).
  { induction ts as [|t ts IH]; intros m' Hr Hn Hc; simpl.
    - split; [exact Hr|split; [exact Hn|]]. intros k it' H.
      split; [apply (Hc k it' H)|]. exists it'. split; [exact H|split; [apply Qle_refl|reflexivity]].
    - destruct (applyDecay_get m' t Hn) as (Hn1 & Hr1 & Hg1).
      destruct (IH (applyDecay Math_exp m' t)) as (Hr2 & Hn2 & Hg2).
      + rewrite Hr1. exact Hr.
      + exact Hn1.
      + intros k it H. rewrite Hg1 in H.
        destruct (map_get k m'.(longTerm)) as [it0|] eqn:E; [|discriminate].
        apply (decay_item_le t _ it0 it Hr (Hc k it0 E) H).
      + split; [exact Hr2|split; [exact Hn2|]]. intros k it' H.
        destruct (Hg2 k it' H) as (Hc' & it1 & H1 & Hle1 & Hcs1).
        split; [exact Hc'|].
        rewrite Hg1 in H1. destruct (map_get k m'.(longTerm)) as [it0|] eqn:E; [|discriminate].
        destruct (decay_item_le t _ it0 it1 Hr (Hc k it0 E) H1) as (Hle0 & Hcs0 & _).
        exists it0. split; [reflexivity|split; [eapply Qle_trans; eassumption|congruence]]. }
  split; [|split].
  - intros k it' H. destruct (Hinv times m Hrate Hnd Hcons) as (_ & _ & Hg).
    apply (Hg k it' H).
  - intros pre now post k it' Htimes. cbv zeta. intros H.
    destruct (Hinv pre m Hrate Hnd Hcons) as (Hr & Hn & Hg).
    destruct (applyDecay_get (fold_left (applyDecay Math_exp) pre m) now Hn) as (_ & _ & Hg1).
    rewrite Hg1 in H.
    destruct (map_get k (fold_left (applyDecay Math_exp) pre m).(longTerm)) as [it|] eqn:E;
      [|discriminate].
    destruct (decay_item_le now _ it it' Hr (proj1 (Hg k it E)) H) as (Hle & Hcs & _).
    exists it. split; [reflexivity|split; assumption].
  - intros pre now post k it Htimes. cbv zeta. intros Hget Ht Hlow Hc.
    destruct (Hinv pre m Hrate Hnd Hcons) as (_ & Hn & _).
    destruct (applyDecay_get (fold_left (applyDecay Math_exp) pre m) now Hn) as (_ & _ & Hg).
    rewrite Hg, Hget. unfold decay_item.
    rewrite (proj2 (Z.ltb_lt _ _) Ht), Hc, andb_true_r.
    rewrite (proj2 (Qltb_spec _ _) Hlow). reflexivity.
Qed.
End DecayFacts.

(** [applyDecay_monotone] with [Math.exp] replaced by the constant 0.25,
    on a store holding "k" (importance 0.5, not consolidated) and "c"
    (importance 0.5, consolidated), decayed two and four days after their
    last access: "k" drops to 0.125 at the first call and is removed at
    the second (0.03125 < 0.1), "c" stays with a lower importance. *)
Lemma applyDecay_monotone_witness :
  let f := fun _ : Q => 1#4 in
  let m1 := applyDecay f decay_pair_state (2 * decayThreshold) in
  let m2 := applyDecay f m1 (4 * decayThreshold) in
  map_get "k" m1.(longTerm) = Some (mkLt (JStr "x") (1#8) 0 0 0 false) /\
  (exists it, map_get "k" decay_pair_state.(longTerm) = Some it /\ 1#8 <= it.(lt_importance)) /\
  map_get "k" m2.(longTerm) = None /\
  (exists it, map_get "c" decay_pair_state.(longTerm) = Some it /\
     1#32 <= it.(lt_importance) /\ true = it.(lt_consolidated)).
Proof.
  cbv zeta.
  destruct (applyDecay_monotone (fun _ => 1#4) ltac:(intros x _; split; vm_compute; discriminate)
              decay_pair_state [2 * decayThreshold; 4 * decayThreshold]%Z) as (A & B & C).
  - vm_compute. discriminate.
  - vm_compute. repeat constructor; simpl; intuition discriminate.
  - intros k it H _. simpl in H.
    destruct (String.eqb k "k"); [injection H as <-; vm_compute; discriminate|].
    destruct (String.eqb k "c"); [injection H as <-; vm_compute; discriminate|discriminate].
  - split; [vm_compute; reflexivity|]. split.
    + destruct (B [] (2 * decayThreshold)%Z [4 * decayThreshold]%Z "k"
                  (mkLt (JStr "x") (1#8) 0 0 0 false) eq_refl) as (it & H1 & H2 & _).
      * vm_compute. reflexivity.
      * exists it. split; assumption.
    + split.
      * apply (C [2 * decayThreshold]%Z (4 * decayThreshold)%Z [] "k"
                 (mkLt (JStr "x") (1#8) 0 0 0 false) eq_refl); vm_compute; reflexivity.
      * destruct (A "c" (mkLt (JStr "y") (1#32) 0 0 0 true)) as (it & H1 & H2 & H3).
        -- vm_compute. reflexivity.
        -- exists it. split; [exact H1|split; assumption].
Defined.

(** ** [reason]: the merge of confidences *)

Lemma fold_preserve {A B} (P : A -> Prop) (f : A -> B -> A) (l : list B) (a : A) :
  (forall a b, P a -> P (f a b)) -> P a -> P (fold_left f l a).
Proof.
  intros Hf. revert a. induction l as [|b l IH]; intros a Ha; simpl; [exact Ha|].
  apply IH, Hf, Ha.
Qed.

Lemma conf_inv_push_step (ch : chain) (s : step) : conf_inv ch -> conf_inv (push_step ch s).
Proof. intro H. exact H. Qed.

Lemma conf_inv_push_max (ch : chain) (c : jsval) (v : Q) :
  conf_inv ch -> conf_inv (push_max ch c v).
Proof.
  unfold conf_inv, push_max. simpl. intros [H1 H2]. rewrite fold_left_app. simpl.
  split; [apply Q.max_compat; [exact H1|reflexivity]|].
  rewrite !length_app. simpl. lia.
Qed.

Lemma conf_inv_push_set (ch : chain) (c : jsval) (v : Q) :
  conf_inv ch -> ch.(contributed) = [] -> 0 <= v -> conf_inv (push_set ch c v).
Proof.
  unfold conf_inv, push_set. simpl. intros [H1 H2] He Hv. rewrite He in *. simpl.
  split; [symmetry; apply Q.max_r, Hv|]. rewrite length_app. simpl in *. lia.
Qed.

Lemma conf_inv_applyRules (fuel : nat) rs q st (d D : nat) :
  conf_inv (fst st) -> conf_inv (fst (applyRules_fuel fuel rs q st d D)).
Proof.
  revert q st d. induction fuel as [|fuel IH]; intros q st d Hst; cbn [applyRules_fuel];
    [exact Hst|].
  destruct (D <=? d)%nat; [exact Hst|].
  apply (fold_preserve (fun st => conf_inv (fst st))); [|exact Hst].
  intros [ch us] [name r] Hp. cbv beta iota.
  destruct (matchesRule q r); [|exact Hp].
  destruct (applyRule q r) as [[content conf]|]; [|exact Hp].
  apply IH. cbn [fst].
  destruct (existsb _ _); [|apply conf_inv_push_max]; apply conf_inv_push_step, Hp.
Qed.

Lemma conf_inv_patternMatching (m : Memory) (q : string) (ch : chain) (now : Z) :
  conf_inv ch -> conf_inv (snd (patternMatching m q ch now)).
Proof.
  unfold patternMatching. generalize handlers as hs.
  induction hs as [|[[src re] h] hs IH]; intro Hch; cbn [patternMatching_aux]; [exact Hch|].
  destruct (exec re q) as [[|cap caps]|]; [apply IH, Hch| |apply IH, Hch].
  destruct (h m cap now) as [m' [content conf]]. cbn [snd].
  destruct (existsb _ _); [|apply conf_inv_push_max]; apply conf_inv_push_step, Hch.
Qed.

Lemma conf_inv_analogy (q : string) (ms : list recalled) (ch ch' : chain) :
  conf_inv ch -> analogy_loop q ms ch = Ok ch' -> conf_inv ch'.
Proof.
  revert ch. induction ms as [|mem ms IH]; intros ch Hch; cbn [analogy_loop].
  - intro H. injection H as <-. exact Hch.
  - destruct (findAnalogy q (r_content mem)) as [[[a conf]|]|err]; [|apply IH, Hch|discriminate].
    destruct (some_includes _ a) as [[|]|err]; [| |discriminate].
    + apply IH, conf_inv_push_step, Hch.
    + apply IH, conf_inv_push_max, conf_inv_push_step, Hch.
Qed.

Lemma search_importance (m : Memory) (q : jsval) (r : recalled) :
  Forall (fun it => 0 <= it.(st_importance)) m.(shortTerm) ->
  Forall (fun '(_, it) => 0 <= it.(lt_importance)) m.(longTerm) ->
  Forall (fun ep => 0 <= ep.(ep_importance)) m.(episodic) ->
  In r (searchShortTerm m q ++ searchLongTerm m q ++ searchEpisodic m q) ->
  0 <= r.(r_importance).
Proof.
  intros Hs Hl He. rewrite !in_app_iff. intros [H|[H|H]].
  - unfold searchShortTerm in H. apply filter_In in H as [H _].
    apply in_map_iff in H as [it [<- Hit]]. simpl.
    rewrite Forall_forall in Hs. apply (Hs it Hit).
  - unfold searchLongTerm in H. apply in_flat_map in H as [[k it] [Hit H]].
    destruct (Qltb (1#10) _); [|destruct H].
    destruct H as [<-|[]]. simpl. rewrite Forall_forall in Hl. apply (Hl (k, it) Hit).
  - unfold searchEpisodic in H. apply filter_In in H as [H _].
    apply in_map_iff in H as [ep [<- Hep]]. simpl.
    rewrite Forall_forall in He. apply (He ep Hep).
Qed.

Lemma recall_importance (m : Memory) (q : jsval) (t : string) (now : Z) (r : recalled) :
  Forall (fun it => 0 <= it.(st_importance)) m.(shortTerm) ->
  Forall (fun '(_, it) => 0 <= it.(lt_importance)) m.(longTerm) ->
  Forall (fun ep => 0 <= ep.(ep_importance)) m.(episodic) ->
  In r (snd (recall m q t now)) -> 0 <= r.(r_importance).
Proof.
  intros Hs Hl He. destruct (recall_result m q t now) as [res [-> Hincl]].
  intro H. apply In_sort_by in H. apply (search_importance m q r Hs Hl He), Hincl, H.
Qed.

(** Claim C4, as amended: when the facts' confidences and the stored
    importances are non-negative, the confidence of the trace [reason]
    returns is the maximum of 0 and the values merged when a conclusion
    is pushed ([contributed], one per conclusion): the fact's confidence
    for the direct fact, relevance times importance for the memory
    recall (whose step records the importance alone), the rule's or the
    handler's confidence for rule and pattern steps, and 0.7 times the
    step's confidence for an analogy. It is never their sum or mean. *)
Theorem reason_confidence_is_max (e : engine) (q : string) (D : nat) (now : Z) :
  Forall (fun f => 0 <= f.(fact_confidence)) e.(facts) ->
  Forall (fun it => 0 <= it.(st_importance)) e.(memory).(shortTerm) ->
  Forall (fun '(_, it) => 0 <= it.(lt_importance)) e.(memory).(longTerm) ->
  Forall (fun ep => 0 <= ep.(ep_importance)) e.(memory).(episodic) ->
  match reason e q D now with
  | Ok (_, ch) =>
      ch.(confidence) == fold_left Qmax ch.(contributed) 0 /\
      List.length ch.(contributed) = List.length ch.(conclusions)
  | Err _ => True
  end.
Proof.
  intros Hf Hs Hl He. unfold reason.
  set (ch1 := match findRelevantFacts e q with [] => _ | _ :: _ => _ end).
  assert (H1 : conf_inv ch1).
  { unfold ch1. destruct (findRelevantFacts e q) as [|f fs] eqn:Ef; [split; reflexivity|].
    apply conf_inv_push_set; [apply conf_inv_push_step; split; reflexivity|reflexivity|].
    assert (Hin : In f (findRelevantFacts e q)) by (rewrite Ef; left; reflexivity).
    unfold findRelevantFacts in Hin. apply In_sort_by, filter_In in Hin as [Hin _].
    rewrite Forall_forall in Hf. apply (Hf f Hin). }
  cbv zeta.
  destruct (recall (memory e) (JStr q) "all" now) as [m mr] eqn:Erec.
  set (ch2 := match mr with [] => ch1 | _ :: _ => _ end).
  assert (H2 : conf_inv ch2).
  { unfold ch2. destruct mr as [|best bs]; [exact H1|].
    assert (Hin : In best (snd (recall (memory e) (JStr q) "all" now)))
      by (rewrite Erec; left; reflexivity).
    destruct (conclusions (push_step ch1 _)) eqn:Ec;
      [|apply conf_inv_push_step, H1].
    apply conf_inv_push_set; [apply conf_inv_push_step, H1| |].
    - destruct H1 as [_ Hlen]. simpl in Ec. rewrite Ec in Hlen.
      simpl. destruct (contributed ch1); [reflexivity|discriminate].
    - apply Qmult_le_0_compat.
      + apply Qlt_le_weak, Qlt_trans with (1#10); [reflexivity|].
        apply (recall_relevance _ _ _ _ _ Hin).
      + apply (recall_importance _ _ _ _ _ Hs Hl He Hin). }
  cbv zeta.
  destruct (applyRules (rules e) q (ch2, rules e) 0 D) as [ch3 rs] eqn:Ea.
  assert (H3 : conf_inv ch3).
  { pose proof (conf_inv_applyRules (S (D - 0)) (rules e) q (ch2, rules e) 0 D H2) as H.
    unfold applyRules in Ea. rewrite Ea in H. exact H. }
  destruct (patternMatching m q ch3 now) as [m4 ch4] eqn:Ep.
  assert (H4 : conf_inv ch4).
  { pose proof (conf_inv_patternMatching m q ch3 now H3) as H. rewrite Ep in H. exact H. }
  destruct (analogicalReasoning m4 q ch4 now) as [[m5 ch5]|err] eqn:Ean; [|exact I].
  unfold analogicalReasoning in Ean.
  destruct (recall m4 (JStr q) "episodic" now) as [m6 rs6].
  destruct (analogy_loop q _ ch4) as [ch6|err] eqn:El; [|discriminate].
  injection Ean as _ <-.
  exact (conf_inv_analogy _ _ _ _ H4 El).
Qed.

(** [reason_confidence_is_max] on [sky_engine] (one fact, one long-term
    item) for "if the sky is blue then rain": three values are merged,
    the fact's 0.6, the conditional rule's 0.9 and the negation rule's
    0.85; the trace's confidence is 0.9, their maximum, and neither their
    sum 2.35 nor their mean. *)
Lemma reason_confidence_is_max_witness :
  match reason sky_engine "if the sky is blue then rain" 3 0 with
  | Ok (_, ch) =>
      (ch.(confidence) == fold_left Qmax ch.(contributed) 0 /\
       List.length ch.(contributed) = List.length ch.(conclusions)) /\
      ch.(contributed) = [3#5; 9#10; 85#100] /\
      ch.(confidence) == 9#10 /\
      ~ ch.(confidence) == (3#5) + (9#10) + (85#100) /\
      ~ ch.(confidence) == ((3#5) + (9#10) + (85#100)) / 3
  | Err _ => False
  end.
Proof.
  pose proof (reason_confidence_is_max sky_engine "if the sky is blue then rain" 3 0
                ltac:(vm_compute; repeat constructor; discriminate)
                ltac:(vm_compute; repeat constructor)
                ltac:(vm_compute; repeat constructor; discriminate)
                ltac:(vm_compute; repeat constructor)) as H.
  destruct (reason sky_engine "if the sky is blue then rain" 3 0) as [[e' ch]|err] eqn:E;
    vm_compute in E; [|discriminate].
  injection E as _ <-. split; [exact H|].
  vm_compute. split; [reflexivity|split; [reflexivity|split; discriminate]].
Defined.

(* ================================================================== *)
(** * Further properties of [Memory] *)

(** ** Inserting into and reading back the long-term store *)

Lemma map_set_length_present {V} (k : string) (v : V) (l : list (string * V)) :
  map_get k l <> None -> List.length (map_set k v l) = List.length l.
Proof.
  intro H. rewrite <- (length_map fst (map_set k v l)), map_set_present_keys by exact H.
  apply length_map.
Qed.

(** [addToLongTerm(key, value, importance)] on a store within capacity
    that either already holds [key] or has room for one more entry:
    [longTerm.get(key)] is then the fresh item (access count 0, last
    access [now], not consolidated), [memoryWeights.get(key)] is the
    given importance, and every other key reads as before. *)
Theorem addToLongTerm_lookup (m : Memory) (key : string) (value : jsval)
    (importance : Q) (now : Z) :
  len_Q m.(longTerm) <= m.(longTermCapacity) ->
  (map_get key m.(longTerm) <> None \/ len_Q m.(longTerm) < m.(longTermCapacity)) ->
  let m' := fst (addToLongTerm m key value importance now) in
  map_get key m'.(longTerm) = Some (mkLt value importance now 0 now false) /\
  map_get key m'.(memoryWeights) = Some importance /\
  (forall k, k <> key -> map_get k m'.(longTerm) = map_get k m.(longTerm)).
Proof.
  intros Hle Hroom. cbv zeta. unfold addToLongTerm. cbn [fst].
  rewrite manage_noop.
  2:{ simpl. destruct (map_get key (longTerm m)) eqn:E.
      - rewrite (len_Q_eq (longTerm m)) by (apply map_set_length_present; congruence). lra.
      - rewrite (len_Q_S (longTerm m))
          by (rewrite map_get_none_set by exact E; rewrite length_app; simpl; lia).
        destruct Hroom as [H|H]; [congruence|lra]. }
  simpl. rewrite !map_get_set, String.eqb_refl. repeat split.
  intros k Hk. rewrite map_get_set. apply String.eqb_neq in Hk. rewrite Hk. reflexivity.
Qed.

Lemma addToLongTerm_lookup_witness :
  let m' := fst (addToLongTerm decay_state "k2" (JStr "y") (3#4) 7) in
  map_get "k2" m'.(longTerm) = Some (mkLt (JStr "y") (3#4) 7 0 7 false) /\
  map_get "k2" m'.(memoryWeights) = Some (3#4) /\
  (forall k, k <> "k2" -> map_get k m'.(longTerm) = map_get k decay_state.(longTerm)).
Proof.
  apply (addToLongTerm_lookup decay_state "k2" (JStr "y") (3#4) 7).
  - vm_compute. discriminate.
  - right. vm_compute. reflexivity.
Defined.

(** ** [recall] *)

(** [recall] changes no store: only the access bookkeeping
    ([memoryWeights], [accessCount], [lastAccess]) can differ afterwards. *)
Theorem recall_keeps_stores (m : Memory) (q : jsval) (t : string) (now : Z) :
  exists w a l, fst (recall m q t now) =
    mkMemory m.(shortTermCapacity) m.(longTermCapacity) m.(episodicCapacity)
      m.(shortTerm) m.(longTerm) m.(episodic) w a l
      m.(decayRate) m.(consolidationThreshold) m.(idCounter).
Proof.
  unfold recall. cbv zeta. cbn [fst].
  apply (fold_preserve (fun m' => exists w a l, m' =
    mkMemory m.(shortTermCapacity) m.(longTermCapacity) m.(episodicCapacity)
      m.(shortTerm) m.(longTerm) m.(episodic) w a l
      m.(decayRate) m.(consolidationThreshold) m.(idCounter))).
  - intros m' r [w [a [l ->]]]. unfold updateAccess, set_access, set_memoryWeights.
    cbv zeta. cbn [shortTermCapacity longTermCapacity episodicCapacity shortTerm longTerm
                   episodic memoryWeights accessCount lastAccess decayRate
                   consolidationThreshold idCounter].
    destruct (_ <? _)%nat; do 3 eexists; reflexivity.
  - destruct m. do 3 eexists. reflexivity.
Qed.

(** A memory type other than ["all"], ["shortterm"], ["longterm"] and
    ["episodic"] selects nothing: the result is empty and no access is
    recorded. *)
Theorem recall_unknown_type (m : Memory) (q : jsval) (t : string) (now : Z) :
  t <> "all" -> t <> "shortterm" -> t <> "longterm" -> t <> "episodic" ->
  recall m q t now = (m, []).
Proof.
  intros H1 H2 H3 H4. unfold recall. cbv zeta.
  apply String.eqb_neq in H1, H2, H3, H4. rewrite H1, H2, H3, H4. reflexivity.
Qed.

Lemma recall_unknown_type_witness :
  recall decay_state (JStr "x") "semantic" 0 = (decay_state, []).
Proof.
  apply recall_unknown_type; discriminate.
Defined.

Lemma filter_map_nil {A B} (P : B -> bool) (f : A -> B) (l : list A) :
  (forall x, P (f x) = false) -> filter P (map f l) = [].
Proof.
  intro H. induction l as [|x l IH]; simpl; [reflexivity|]. rewrite H. exact IH.
Qed.

Lemma flat_map_nil {A B} (g : A -> list B) (l : list A) :
  (forall x, g x = []) -> flat_map g l = [].
Proof.
  intro H. induction l as [|x l IH]; simpl; [reflexivity|]. rewrite H. exact IH.
Qed.

Lemma relevance_non_string_query (q c : jsval) :
  (forall s, q <> JStr s) -> calculateRelevance q c = 0.
Proof.
  intro Hq. destruct q; [exfalso; eapply Hq; reflexivity|reflexivity..].
Qed.

(** A query that is not a string (a number, an object, [null],
    [undefined]) has relevance 0 to everything: [recall] returns nothing
    and records no access. *)
Theorem recall_non_string_query (m : Memory) (q : jsval) (t : string) (now : Z) :
  (forall s, q <> JStr s) -> recall m q t now = (m, []).
Proof.
  intro Hq.
  assert (E : forall c, calculateRelevance q c = 0)
    by (intro; apply relevance_non_string_query, Hq).
  assert (H1 : searchShortTerm m q = [])
    by (apply filter_map_nil; intro; cbn [r_relevance]; rewrite E; reflexivity).
  assert (H2 : searchLongTerm m q = [])
    by (apply flat_map_nil; intros [k it]; cbv beta iota zeta; rewrite E; reflexivity).
  assert (H3 : searchEpisodic m q = [])
    by (apply filter_map_nil; intro; cbn [r_relevance]; rewrite E; reflexivity).
  unfold recall. cbv zeta. rewrite H1, H2, H3.
  destruct (String.eqb t "all"), (String.eqb t "shortterm"), (String.eqb t "longterm"),
           (String.eqb t "episodic"); reflexivity.
Qed.

Lemma recall_non_string_query_witness :
  recall decay_state JObj "all" 0 = (decay_state, []).
Proof.
  apply recall_non_string_query. intros s H. discriminate H.
Defined.

Lemma relevance_strings (q c : jsval) :
  1#10 < calculateRelevance q c -> (exists s, q = JStr s) /\ (exists s, c = JStr s).
Proof.
  destruct q, c; cbn [calculateRelevance];
    try (intros _; split; eexists; reflexivity);
    intro H; exfalso; revert H; vm_compute; intro H; discriminate H.
Qed.

(** Every entry [recall] returns is a short-term or long-term entry whose
    content is a string, or an episodic entry whose content is
    [undefined] (episodes have an [event], no [content]). An item stored
    with a non-string content is never returned. *)
Theorem recall_entries_shape (m : Memory) (q : jsval) (t : string) (now : Z) :
  Forall (fun r =>
      ((r.(r_type) = "shortterm" \/ r.(r_type) = "longterm") /\
       exists s, r.(r_content) = JStr s) \/
      (r.(r_type) = "episodic" /\ r.(r_content) = JUndef))
    (snd (recall m q t now)).
Proof.
  apply Forall_forall. intros r Hr.
  destruct (recall_result m q t now) as [res [Hres Hincl]]. rewrite Hres in Hr.
  apply In_sort_by, Hincl in Hr. rewrite !in_app_iff in Hr.
  destruct Hr as [H|[H|H]].
  - unfold searchShortTerm in H. apply filter_In in H as [H Hrel]. apply Qltb_spec in Hrel.
    apply in_map_iff in H as [it [<- _]]. cbn [r_type r_content r_relevance] in *.
    left. split; [left; reflexivity|]. exact (proj2 (relevance_strings _ _ Hrel)).
  - unfold searchLongTerm in H. apply in_flat_map in H as [[k it] [_ H]].
    destruct (Qltb (1#10) _) eqn:E; [|destruct H].
    destruct H as [<-|[]]. apply Qltb_spec in E. cbn [r_type r_content].
    left. split; [right; reflexivity|]. exact (proj2 (relevance_strings _ _ E)).
  - unfold searchEpisodic in H. apply filter_In in H as [H _].
    apply in_map_iff in H as [ep [<- _]]. right. split; reflexivity.
Qed.

(** ** [updateAccess] *)

Lemma iter_updateAccess (m : Memory) (id : string) (now : Z) (n : nat) :
  map_get id m.(accessCount) = None -> (n <= S m.(consolidationThreshold))%nat ->
  let m' := Nat.iter n (fun m => updateAccess m id now) m in
  map_get id m'.(accessCount) = match n with O => None | S _ => Some n end /\
  (n <> O -> map_get id m'.(lastAccess) = Some now) /\
  m'.(memoryWeights) = m.(memoryWeights) /\
  m'.(consolidationThreshold) = m.(consolidationThreshold).
Proof.
  intros H0. induction n as [|n IH]; intro Hn; cbv zeta.
  - repeat split; [exact H0|intro C; congruence].
  - cbv zeta in IH. destruct IH as (Hc & _ & Hw & Ht); [lia|].
    rewrite Nat.iter_succ. set (mn := Nat.iter n _ m) in *.
    assert (Ecount : match map_get id mn.(accessCount) with Some c => c | None => O end = n)
      by (rewrite Hc; destruct n; reflexivity).
    assert (Elt : (mn.(consolidationThreshold) <? n)%nat = false)
      by (apply Nat.ltb_ge; lia).
    unfold updateAccess, set_access, set_memoryWeights. cbv zeta.
    cbn [consolidationThreshold accessCount lastAccess memoryWeights].
    rewrite Ecount, Elt. cbn [consolidationThreshold accessCount lastAccess memoryWeights].
    rewrite !map_get_set, String.eqb_refl. repeat split; assumption.
Qed.

(** Accessing an id with no recorded access count leaves all weights
    unchanged for the first [consolidationThreshold + 1] accesses: the
    weight is only raised once the previous count exceeds the threshold.
    After [n] such accesses the count is [n] and the last access [now]. *)
Theorem updateAccess_first_accesses (m : Memory) (id : string) (now : Z) (n : nat) :
  map_get id m.(accessCount) = None -> (1 <= n <= S m.(consolidationThreshold))%nat ->
  let m' := Nat.iter n (fun m => updateAccess m id now) m in
  map_get id m'.(accessCount) = Some n /\ map_get id m'.(lastAccess) = Some now /\
  m'.(memoryWeights) = m.(memoryWeights).
Proof.
  intros H0 [H1 H2].
  destruct (iter_updateAccess m id now n H0 H2) as (Hc & Hl & Hw & _).
  destruct n as [|n]; [lia|]. cbv zeta.
  repeat split; [exact Hc|apply Hl; discriminate|exact Hw].
Qed.

Lemma updateAccess_first_accesses_witness :
  let m' := Nat.iter 6 (fun m => updateAccess m "k" 5) decay_state in
  map_get "k" m'.(accessCount) = Some 6%nat /\ map_get "k" m'.(lastAccess) = Some 5%Z /\
  m'.(memoryWeights) = decay_state.(memoryWeights).
Proof.
  apply (updateAccess_first_accesses decay_state "k" 5 6).
  - vm_compute. reflexivity.
  - vm_compute. lia.
Defined.

(** [updateAccess(id)] writes the weight of [id] only, and what it writes
    is at most 1. *)
Theorem updateAccess_weight (m : Memory) (id : string) (now : Z) :
  let m' := updateAccess m id now in
  (forall k, k <> id -> map_get k m'.(memoryWeights) = map_get k m.(memoryWeights)) /\
  (map_get id m'.(memoryWeights) = map_get id m.(memoryWeights) \/
   exists w, map_get id m'.(memoryWeights) = Some w /\ w <= 1).
Proof.
  cbv zeta. unfold updateAccess, set_access, set_memoryWeights. cbv zeta.
  cbn [memoryWeights consolidationThreshold].
  destruct (_ <? _)%nat; cbn [memoryWeights].
  - split.
    + intros k Hk. rewrite map_get_set. apply String.eqb_neq in Hk. rewrite Hk. reflexivity.
    + right. rewrite map_get_set, String.eqb_refl. eexists; split; [reflexivity|].
      apply Q.le_min_r.
  - split; [reflexivity|left; reflexivity].
Qed.

(** ** [calculateImportance] *)

(** Every importance lies between 0.5 and 1; a content that is not a
    string has importance 0.5. *)
Theorem calculateImportance_range (content : jsval) :
  (1#2 <= calculateImportance content <= 1) /\
  ((forall s, content <> JStr s) -> calculateImportance content == 1#2).
Proof.
  unfold calculateImportance. cbv zeta. split; [split|].
  - apply Q.min_glb; [|lra].
    destruct content; try lra.
    destruct (existsb _ importantKeywords), (100 <? _)%nat, (existsb _ emotionalWords); lra.
  - apply Q.le_min_r.
  - intro H. destruct content; [exfalso; eapply H; reflexivity|..]; apply Q.min_l; lra.
Qed.

(** A string mentioning an important keyword has importance at least
    0.8; an importance above 0.7 (the bar for promotion to long-term
    memory) needs an important keyword or an emotional word. *)
Theorem calculateImportance_thresholds (s : string) :
  let kw := existsb (fun k => includes (toLowerCase s) k) importantKeywords in
  let emo := existsb (fun w => includes (toLowerCase s) w) emotionalWords in
  (kw = true -> 4#5 <= calculateImportance (JStr s)) /\
  (7#10 < calculateImportance (JStr s) -> kw = true \/ emo = true).
Proof.
  cbv zeta. unfold calculateImportance. cbv zeta.
  destruct (existsb _ importantKeywords), (100 <? _)%nat, (existsb _ emotionalWords);
    split; intro H; try discriminate; try (left; reflexivity); try (right; reflexivity);
    try (apply Q.min_glb; lra);
    exfalso; match type of H with _ < Qmin ?x 1 => pose proof (Q.le_min_l x 1) end; lra.
Qed.

(** ** [addToShortTerm] and [addEpisodicMemory] *)

(** When the buffer has room for one more item (its length plus one is
    at most the capacity), [addToShortTerm(item)] appends the new item
    (with the returned id, [now] and the computed importance) and touches
    neither the other stores nor the weights. *)
Theorem addToShortTerm_below_capacity (m : Memory) (item : jsval) (now : Z) :
  len_Q m.(shortTerm) + 1 <= m.(shortTermCapacity) ->
  let (m', id) := addToShortTerm m item now in
  m'.(shortTerm) = (m.(shortTerm) ++ [mkSt item now (calculateImportance item) id])%list /\
  m'.(longTerm) = m.(longTerm) /\ m'.(episodic) = m.(episodic) /\
  m'.(memoryWeights) = m.(memoryWeights).
Proof.
  intro H. unfold addToShortTerm, generateId. cbv zeta.
  cbn [shortTerm shortTermCapacity].
  destruct (Qltb _ _) eqn:Hc.
  - apply Qltb_spec in Hc.
    rewrite (len_Q_S m.(shortTerm)) in Hc by (rewrite length_app; simpl; lia). lra.
  - repeat split.
Qed.

Lemma addToShortTerm_below_capacity_witness :
  let (m', id) := addToShortTerm decay_state (JStr "hi") 3 in
  m'.(shortTerm) = (decay_state.(shortTerm) ++ [mkSt (JStr "hi") 3 (calculateImportance (JStr "hi")) id])%list /\
  m'.(longTerm) = decay_state.(longTerm) /\ m'.(episodic) = decay_state.(episodic) /\
  m'.(memoryWeights) = decay_state.(memoryWeights).
Proof.
  apply (addToShortTerm_below_capacity decay_state (JStr "hi") 3). vm_compute. discriminate.
Defined.

Lemma addEpisodicMemory_string_eq (m : Memory) (s : string) (now : Z) :
  exists emo, addEpisodicMemory m (JStr s) now =
    let id := fst (generateId m) in
    let ep := mkEpisode (JStr s) now (getCurrentContext m now) emo
                        (calculateImportance (JStr s)) id in
    let eps := (m.(episodic) ++ [ep])%list in
    if Qltb m.(episodicCapacity) (len_Q eps)
    then Ok (set_episodic (snd (generateId m)) (tl eps), id)
    else Ok (set_episodic (snd (generateId m)) eps, id).
Proof.
  exists (match analyzeEmotionalContext (JStr s) with
          | Ok e => e | Err _ => mkEmotions 0 0 0 0 end).
  reflexivity.
Qed.

(** [addEpisodicMemory(event)] throws exactly when the event is not a
    string ([analyzeEmotionalContext] calls [toLowerCase] on it). *)
Theorem addEpisodicMemory_throws_iff (m : Memory) (event : jsval) (now : Z) :
  (exists msg, addEpisodicMemory m event now = Err msg) <-> (forall s, event <> JStr s).
Proof.
  destruct event as [s| | | |].
  - destruct (addEpisodicMemory_string_eq m s now) as [emo ->]. cbv zeta.
    split; [intros [msg H]; destruct (Qltb _ _); discriminate H
           |intro H; exfalso; eapply H; reflexivity].
  - split; [intros _ s' H; discriminate H|intros _; eexists; reflexivity].
  - split; [intros _ s' H; discriminate H|intros _; eexists; reflexivity].
  - split; [intros _ s' H; discriminate H|intros _; eexists; reflexivity].
  - split; [intros _ s' H; discriminate H|intros _; eexists; reflexivity].
Qed.

(** For a string event, [addEpisodicMemory] appends an episode holding the
    event, [now], the current context ([getCurrentContext]: the last three
    short-term items) and the event's importance, under the returned id;
    at most the oldest episode is dropped, and the short-term and
    long-term stores are unchanged. *)
Theorem addEpisodicMemory_appends (m : Memory) (s : string) (now : Z) :
  match addEpisodicMemory m (JStr s) now with
  | Ok (m', id) =>
      m'.(shortTerm) = m.(shortTerm) /\ m'.(longTerm) = m.(longTerm) /\
      exists ep pre,
        ep.(ep_event) = JStr s /\ ep.(ep_timestamp) = now /\ ep.(ep_id) = id /\
        ep.(ep_context) = getCurrentContext m now /\
        ep.(ep_importance) = calculateImportance (JStr s) /\
        (m.(episodic) ++ [ep])%list = (pre ++ m'.(episodic))%list /\
        (List.length pre <= 1)%nat
  | Err _ => False
  end.
Proof.
  destruct (addEpisodicMemory_string_eq m s now) as [emo ->]. cbv zeta.
  destruct (Qltb _ _); cbn [set_episodic shortTerm longTerm episodic];
    (split; [reflexivity|]); (split; [reflexivity|]);
    exists (mkEpisode (JStr s) now (getCurrentContext m now) emo
                      (calculateImportance (JStr s)) (fst (generateId m))).
  - destruct (episodic m ++ _)%list as [|x rest] eqn:El.
    + exfalso. apply app_eq_nil in El as [_ El]. discriminate El.
    + exists [x]. repeat split; simpl; auto.
  - exists []. repeat split; simpl; auto.
Qed.

(** ** [applyDecay] *)

Section DecayMore.
Variable Math_exp : Q -> Q.

(** An entry accessed within the last 24 hours is left exactly as it was
    by [applyDecay]. *)
Theorem applyDecay_recent_untouched (m : Memory) (now : Z) (k : string) (it : ltItem) :
  NoDup (map fst m.(longTerm)) -> map_get k m.(longTerm) = Some it ->
  (now - it.(lt_lastAccess) <= decayThreshold)%Z ->
  map_get k (applyDecay Math_exp m now).(longTerm) = Some it.
Proof.
  intros Hnd Hget Hrecent.
  destruct (applyDecay_get Math_exp m now Hnd) as (_ & _ & E).
  rewrite E, Hget. unfold decay_item.
  destruct (Z.ltb_spec decayThreshold (now - lt_lastAccess it)); [lia|reflexivity].
Qed.

(** [applyDecay] never deletes a consolidated entry: it stays, still
    marked consolidated, with its content. *)
Theorem applyDecay_keeps_consolidated (m : Memory) (now : Z) (k : string) (it : ltItem) :
  NoDup (map fst m.(longTerm)) -> map_get k m.(longTerm) = Some it ->
  it.(lt_consolidated) = true ->
  exists it', map_get k (applyDecay Math_exp m now).(longTerm) = Some it' /\
    it'.(lt_consolidated) = true /\ it'.(lt_content) = it.(lt_content).
Proof.
  intros Hnd Hget Hc.
  destruct (applyDecay_get Math_exp m now Hnd) as (_ & _ & E).
  rewrite E, Hget. unfold decay_item. rewrite Hc, andb_false_r.
  destruct (decayThreshold <? _)%Z; eexists; (split; [reflexivity|split; [|reflexivity]]);
    cbn [lt_consolidated]; first [exact Hc|reflexivity].
Qed.
End DecayMore.

Lemma applyDecay_recent_untouched_witness :
  map_get "k" (applyDecay (fun _ => 1#2) decay_state decayThreshold).(longTerm)
    = Some (mkLt (JStr "x") (1#2) 0 0 0 false).
Proof.
  apply (applyDecay_recent_untouched (fun _ => 1#2) decay_state decayThreshold "k").
  - vm_compute. repeat constructor. intros [].
  - vm_compute. reflexivity.
  - vm_compute. discriminate.
Defined.

Lemma applyDecay_keeps_consolidated_witness :
  exists it', map_get "k" (applyDecay (fun _ => 0) consolidated_state (10 * decayThreshold)).(longTerm)
                = Some it' /\
    it'.(lt_consolidated) = true /\ it'.(lt_content) = JStr "x".
Proof.
  apply (applyDecay_keeps_consolidated (fun _ => 0) consolidated_state (10 * decayThreshold) "k"
           (mkLt (JStr "x") (1#2) 0 0 0 true)).
  - vm_compute. repeat constructor. intros [].
  - vm_compute. reflexivity.
  - reflexivity.
Defined.

(* ================================================================== *)
(** * Persistence and statistics *)

Lemma map_get_notin {V} (k : string) (l : list (string * V)) :
  ~ In k (map fst l) -> map_get k l = None.
Proof.
  intro H. destruct (map_get k l) as [v|] eqn:E; [|reflexivity].
  exfalso. apply H. apply map_get_In in E. apply in_map_iff. exists (k, v). auto.
Qed.

Lemma fold_map_set_fresh {V} (l acc : list (string * V)) :
  NoDup (map fst (acc ++ l)) ->
  fold_left (fun acc '(k, v) => map_set k v acc) l acc = (acc ++ l)%list.
Proof.
  revert acc. induction l as [|[k v] l IH]; intros acc Hnd; simpl.
  - rewrite app_nil_r. reflexivity.
  - rewrite map_get_none_set.
    + rewrite IH; [rewrite <- app_assoc; reflexivity|]. rewrite <- app_assoc. exact Hnd.
    + apply map_get_notin. rewrite map_app in Hnd. simpl in Hnd.
      apply NoDup_remove_2 in Hnd. intro H. apply Hnd, in_or_app. left. exact H.
Qed.

(** [new Map(entries)] gives back the entries when their keys are distinct. *)
Lemma new_Map_id {V} (l : list (string * V)) : NoDup (map fst l) -> new_Map l = l.
Proof. intro H. exact (fold_map_set_fresh l [] H). Qed.

(** [load(save())]: loading what [save] wrote, into any memory object,
    restores the three stores, the weights, the access counts and times,
    the capacities, the decay rate and the consolidation threshold. The
    maps' keys being distinct is what a JavaScript [Map] guarantees. *)
Theorem load_save_roundtrip (m m' : Memory) (now : Z) :
  NoDup (map fst m.(longTerm)) -> NoDup (map fst m.(memoryWeights)) ->
  NoDup (map fst m.(accessCount)) -> NoDup (map fst m.(lastAccess)) ->
  load m' (save m now) =
    mkMemory m.(shortTermCapacity) m.(longTermCapacity) m.(episodicCapacity)
      m.(shortTerm) m.(longTerm) m.(episodic) m.(memoryWeights) m.(accessCount)
      m.(lastAccess) m.(decayRate) m.(consolidationThreshold) m'.(idCounter).
Proof.
  intros H1 H2 H3 H4. unfold load, save. simpl.
  rewrite !new_Map_id by assumption. reflexivity.
Qed.

Lemma load_save_roundtrip_witness :
  load (new_Memory default_config) (save recalled_state 9) =
    mkMemory recalled_state.(shortTermCapacity) recalled_state.(longTermCapacity)
      recalled_state.(episodicCapacity) recalled_state.(shortTerm)
      recalled_state.(longTerm) recalled_state.(episodic)
      recalled_state.(memoryWeights) recalled_state.(accessCount)
      recalled_state.(lastAccess) recalled_state.(decayRate)
      recalled_state.(consolidationThreshold) (new_Memory default_config).(idCounter).
Proof.
  apply load_save_roundtrip; vm_compute; repeat constructor; intros [].
Defined.

Lemma Sorted_map_impl {A B} (R : A -> A -> Prop) (R' : B -> B -> Prop) (f : A -> B)
    (l : list A) :
  (forall x y, R x y -> R' (f x) (f y)) -> Sorted R l -> Sorted R' (map f l).
Proof.
  intros HR Hs. induction Hs as [|x l Hs IH Hhd]; simpl; constructor; [exact IH|].
  destruct Hhd; simpl; constructor. apply HR. assumption.
Qed.

Lemma Sorted_firstn {A} (R : A -> A -> Prop) (n : nat) (l : list A) :
  Sorted R l -> Sorted R (firstn n l).
Proof.
  revert l. induction n as [|n IH]; intros l Hs; [constructor|].
  destruct l as [|x l]; simpl; [constructor|].
  apply Sorted_inv in Hs as [Hs Hhd]. constructor; [apply IH, Hs|].
  destruct n; simpl; [constructor|]. destruct l; simpl; constructor.
  inversion Hhd; assumption.
Qed.

Lemma In_skipn' {A} (n : nat) (l : list A) (x : A) : In x (skipn n l) -> In x l.
Proof.
  intro H. rewrite <- (firstn_skipn n l). apply in_or_app. right. exact H.
Qed.

(** In a strongly sorted list, everything before a cut point is related to
    everything after it. *)
Lemma StronglySorted_firstn_skipn {A} (R : A -> A -> Prop) (n : nat) (l : list A) (x y : A) :
  StronglySorted R l -> In x (firstn n l) -> In y (skipn n l) -> R x y.
Proof.
  revert n. induction l as [|a l IH]; intros [|n] Hs Hx Hy; simpl in *;
    try contradiction.
  apply StronglySorted_inv in Hs as [Hs Ha].
  destruct Hx as [<-|Hx].
  - rewrite Forall_forall in Ha. apply Ha, (In_skipn' n), Hy.
  - apply (IH n Hs Hx Hy).
Qed.

(** [getMostAccessedMemories(limit)] returns [min(limit, n)] entries for
    [n] recorded ids, in descending order of access count; each is a
    recorded [(id, count)] pair with that id's last access time, and its
    content is ["N/A"] when the id is no long-term key (as for short-term
    and episodic ids, which [recall] also counts); every recorded pair
    left out has a count no larger than any returned one. *)
Theorem getMostAccessedMemories_spec (m : Memory) (limit : nat) :
  let res := getMostAccessedMemories m limit in
  List.length res = Nat.min limit (List.length m.(accessCount)) /\
  Sorted (fun a b => (b.(a_accessCount) <= a.(a_accessCount))%nat) res /\
  Forall (fun a => In (a.(a_id), a.(a_accessCount)) m.(accessCount) /\
                   a.(a_lastAccess) = map_get a.(a_id) m.(lastAccess) /\
                   (map_get a.(a_id) m.(longTerm) = None -> a.(a_content) = JStr "N/A")) res /\
  (forall x a, In x m.(accessCount) -> In a res ->
     ~ In x (map (fun a => (a.(a_id), a.(a_accessCount))) res) ->
     (snd x <= a.(a_accessCount))%nat).
Proof.
  cbv zeta. unfold getMostAccessedMemories.
  set (f := fun '(id, count) => _ : accessed).
  set (sorted := sort_by count_cmp m.(accessCount)).
  assert (Hperm : Permutation m.(accessCount) sorted) by apply sort_by_perm.
  assert (Hsorted : Sorted (fun x y => inject_Z (Z.of_nat (snd y))
                                         <= inject_Z (Z.of_nat (snd x))) sorted)
    by (apply (sort_by_sorted count_cmp (fun x => inject_Z (Z.of_nat (snd x))));
        intros; reflexivity).
  assert (Hf : forall p, (a_id (f p), a_accessCount (f p)) = p) by (intros [i c]; reflexivity).
  split; [|split; [|split]].
  - rewrite length_map, length_firstn, <- (Permutation_length Hperm). reflexivity.
  - apply (Sorted_map_impl (fun x y : string * nat => inject_Z (Z.of_nat (snd y))
                                                    <= inject_Z (Z.of_nat (snd x))) _ f);
      [|apply Sorted_firstn, Hsorted].
    intros [i c] [j d] H. cbn in H |- *. rewrite <- Zle_Qle in H. lia.
  - apply Forall_forall. intros a Ha. apply in_map_iff in Ha as [[id c] [<- Hin]].
    apply incl_firstn' in Hin. apply (Permutation_in _ (Permutation_sym Hperm)) in Hin.
    cbn. split; [exact Hin|]. split; [reflexivity|]. intro Hn. rewrite Hn. reflexivity.
  - intros x a Hx Ha Hout. apply in_map_iff in Ha as [y [<- Hy]].
    assert (Hxs : In x (skipn limit sorted)).
    { apply (Permutation_in _ Hperm) in Hx. rewrite <- (firstn_skipn limit sorted) in Hx.
      apply in_app_or in Hx as [Hx|Hx]; [|exact Hx].
      exfalso. apply Hout. rewrite map_map. apply in_map_iff. exists x. auto. }
    assert (HS : StronglySorted (fun x y => inject_Z (Z.of_nat (snd y))
                                             <= inject_Z (Z.of_nat (snd x))) sorted).
    { apply Sorted_StronglySorted; [intros p1 p2 p3 H1 H2; lra|exact Hsorted]. }
    pose proof (StronglySorted_firstn_skipn _ limit sorted y x HS Hy Hxs) as H.
    cbv beta in H. rewrite <- Zle_Qle in H. destruct y as [i c]. cbn in H |- *. lia.
Qed.

(** ** Engine persistence, facts and rules *)

Lemma fact_eqb_refl (f : fact) : fact_eqb f f = true.
Proof.
  unfold fact_eqb. rewrite !String.eqb_refl, Qeq_bool_refl, Z.eqb_refl. reflexivity.
Qed.

Lemma new_Set_fold (fs acc : list fact) :
  (forall f x, In f fs -> In x acc -> fact_eqb f x = false) ->
  ForallOrdPairs (fun a b => fact_eqb b a = false) fs ->
  fold_left (fun acc f => if existsb (fact_eqb f) acc then acc else (acc ++ [f])%list) fs acc
    = (acc ++ fs)%list.
Proof.
  revert acc. induction fs as [|f fs IH]; intros acc Hdis Hord; simpl.
  - rewrite app_nil_r. reflexivity.
  - assert (E : existsb (fact_eqb f) acc = false).
    { apply not_true_is_false. intro H. apply existsb_exists in H as [x [Hx Hfx]].
      rewrite (Hdis f x (or_introl eq_refl) Hx) in Hfx. discriminate. }
    rewrite E. inversion Hord as [|? ? Hf Hord']; subst.
    rewrite IH; [rewrite <- app_assoc; reflexivity| |exact Hord'].
    intros g x Hg Hx. apply in_app_or in Hx as [Hx|[<-|[]]].
    + apply Hdis; [right|]; assumption.
    + rewrite Forall_forall in Hf. apply Hf, Hg.
Qed.

(** [load(save())] on the engine: the rules and facts come back as they
    were (rule names being distinct, as in a [Map], and no fact repeated,
    as in a [Set]), the history as its last 50 entries, and the memory is
    the loading engine's own. *)
Theorem load_save_engine_roundtrip (e e' : engine) (now : Z) :
  NoDup (map fst e.(rules)) ->
  ForallOrdPairs (fun a b => fact_eqb b a = false) e.(facts) ->
  load_engine e' (save_engine e now) =
    mkEngine e'.(memory) e.(rules) e.(facts) (last_n 50 e.(reasoningHistory)).
Proof.
  intros Hr Hf. unfold load_engine, save_engine. simpl.
  rewrite new_Map_id by exact Hr. unfold new_Set.
  rewrite (new_Set_fold _ []); [reflexivity|intros f x _ []|exact Hf].
Qed.

Lemma load_save_engine_roundtrip_witness :
  load_engine (new_ReasoningEngine (new_Memory default_config)) (save_engine fact_engine 4) =
    mkEngine (new_Memory default_config) fact_engine.(rules) fact_engine.(facts)
             (last_n 50 fact_engine.(reasoningHistory)).
Proof.
  apply (load_save_engine_roundtrip fact_engine (new_ReasoningEngine (new_Memory default_config)) 4).
  - vm_compute. repeat constructor; simpl; intuition discriminate.
  - vm_compute. repeat constructor.
Defined.

(** Adding the same fact twice at the same time is adding it once: the
    [Set] of facts ignores the second copy. *)
Theorem addFact_idempotent (e : engine) (content : string) (conf : Q) (now : Z) :
  addFact (addFact e content conf now) content conf now = addFact e content conf now.
Proof.
  unfold addFact. destruct (existsb _ (facts e)) eqn:E; [rewrite E; reflexivity|].
  simpl. rewrite existsb_app. simpl. rewrite fact_eqb_refl, orb_true_r. reflexivity.
Qed.

(** The same statement added at a time no stored fact carries is stored
    again: the timestamp is part of the [Set] element, so the [Set] does
    not deduplicate statements. *)
Theorem addFact_new_time_appends (e : engine) (content : string) (conf : Q) (now : Z) :
  Forall (fun f => f.(fact_timestamp) <> now) e.(facts) ->
  (addFact e content conf now).(facts) =
    (e.(facts) ++ [mkFact content conf now "user_input"])%list.
Proof.
  intro H. unfold addFact.
  replace (existsb _ (facts e)) with false; [reflexivity|].
  symmetry. apply not_true_is_false. intro Hx. apply existsb_exists in Hx as [x [Hx Heq]].
  rewrite Forall_forall in H. apply (H x Hx).
  unfold fact_eqb in Heq. cbn [fact_timestamp] in Heq.
  apply andb_prop in Heq as [Heq _]. apply andb_prop in Heq as [_ Heq].
  apply Z.eqb_eq in Heq. symmetry. exact Heq.
Qed.

Lemma addFact_new_time_appends_witness :
  (addFact fact_engine "the sky is blue" 1 5).(facts) =
    (fact_engine.(facts) ++ [mkFact "the sky is blue" 1 5 "user_input"])%list.
Proof.
  apply addFact_new_time_appends. vm_compute. repeat constructor; discriminate.
Defined.

Lemma ForallOrdPairs_app_last {A} (R : A -> A -> Prop) (l : list A) (x : A) :
  ForallOrdPairs R l -> (forall y, In y l -> R y x) -> ForallOrdPairs R (l ++ [x]).
Proof.
  induction l as [|a l IH]; intros Hl Hx; simpl.
  - repeat constructor.
  - inversion Hl as [|? ? Ha Hl']; subst. constructor.
    + apply Forall_app. split; [exact Ha|]. constructor; [apply Hx; left; reflexivity|constructor].
    + apply IH; [exact Hl'|]. intros y Hy. apply Hx. right. exact Hy.
Qed.

(** [addFact] keeps the stored facts pairwise distinct. *)
Theorem addFact_keeps_distinct (e : engine) (content : string) (conf : Q) (now : Z) :
  ForallOrdPairs (fun a b => fact_eqb b a = false) e.(facts) ->
  ForallOrdPairs (fun a b => fact_eqb b a = false) (addFact e content conf now).(facts).
Proof.
  intro H. unfold addFact. destruct (existsb _ (facts e)) eqn:E; [exact H|].
  simpl. apply ForallOrdPairs_app_last; [exact H|].
  intros y Hy. apply not_true_iff_false. intro Hc. apply not_true_iff_false in E.
  apply E, existsb_exists. exists y. auto.
Qed.

Lemma addFact_keeps_distinct_witness :
  ForallOrdPairs (fun a b => fact_eqb b a = false)
    (addFact fact_engine "the sky is blue" 1 5).(facts).
Proof.
  apply addFact_keeps_distinct. vm_compute. repeat constructor.
Defined.

(** [addRule(name, ...)] stores the rule under its name with usage count
    0, leaves every other name's rule, the facts and the memory as they
    were, and keeps the names distinct. *)
Theorem addRule_lookup (e : engine) (name : string) (pat : list string) (concl : string)
    (conf : Q) :
  NoDup (map fst e.(rules)) ->
  let e' := addRule e name pat concl conf in
  map_get name e'.(rules) = Some (mkRule name pat concl conf 0) /\
  (forall k, k <> name -> map_get k e'.(rules) = map_get k e.(rules)) /\
  NoDup (map fst e'.(rules)) /\ e'.(facts) = e.(facts) /\ e'.(memory) = e.(memory).
Proof.
  intro Hnd. cbv zeta. unfold addRule, set_rules. cbn [rules facts memory].
  rewrite map_get_set, String.eqb_refl. split; [reflexivity|].
  split; [|split; [apply map_set_nodup, Hnd|split; reflexivity]].
  intros k Hk. rewrite map_get_set. apply String.eqb_neq in Hk. rewrite Hk. reflexivity.
Qed.

Lemma addRule_lookup_witness :
  let e' := addRule fact_engine "transitivity" ["{A} implies {B}"] "{B}" (1#2) in
  map_get "transitivity" e'.(rules) = Some (mkRule "transitivity" ["{A} implies {B}"] "{B}" (1#2) 0) /\
  (forall k, k <> "transitivity" -> map_get k e'.(rules) = map_get k fact_engine.(rules)) /\
  NoDup (map fst e'.(rules)) /\ e'.(facts) = fact_engine.(facts) /\
  e'.(memory) = fact_engine.(memory).
Proof.
  apply addRule_lookup. vm_compute. repeat constructor; simpl; intuition discriminate.
Defined.

(** [findRelevantFacts(query)] returns exactly the stored facts whose
    content contains the query or is contained in it (case-insensitively),
    each as often as stored, by descending confidence. *)
Theorem findRelevantFacts_spec (e : engine) (q : string) :
  let res := findRelevantFacts e q in
  Permutation res (filter (fun f =>
      includes (toLowerCase f.(fact_content)) (toLowerCase q)
      || includes (toLowerCase q) (toLowerCase f.(fact_content))) e.(facts)) /\
  Sorted (fun a b => b.(fact_confidence) <= a.(fact_confidence)) res.
Proof.
  cbv zeta. unfold findRelevantFacts. split.
  - symmetry. apply sort_by_perm.
  - apply (sort_by_sorted _ fact_confidence). intros; reflexivity.
Qed.

(* ================================================================== *)
(** * Further properties of [ReasoningEngine] *)

(** ** [findAnalogy] *)

(** [findAnalogy(source, target)] throws exactly on a non-string target;
    an analogy it finds names the target and has a confidence in (0, 1]. *)
Theorem findAnalogy_range (source : string) (target : jsval) :
  match findAnalogy source target with
  | Err _ => forall t, target <> JStr t
  | Ok None => exists t, target = JStr t
  | Ok (Some (a, conf)) =>
      (exists t, target = JStr t /\ a = ("Similar to: " ++ t)%string) /\ 0 < conf <= 1
  end.
Proof.
  destruct target as [t| | | |]; cbn [findAnalogy]; try (intros t' H; discriminate H).
  cbv zeta.
  destruct (filter _ (split_space (toLowerCase source))) as [|x xs] eqn:Ef;
    [eexists; reflexivity|].
  split; [eexists; split; reflexivity|].
  assert (Hlen : (List.length (x :: xs) <= List.length (split_space (toLowerCase source)))%nat)
    by (rewrite <- Ef; apply filter_length_le').
  assert (Hab : (List.length (x :: xs) <= Nat.max (List.length (split_space (toLowerCase source)))
                                                 (List.length (split_space (toLowerCase t))))%nat)
    by lia.
  pose proof (split_space_nonempty (toLowerCase source)) as Hs.
  assert (Hb0 : 0 < inject_Z (Z.of_nat (Nat.max (List.length (split_space (toLowerCase source)))
                                                 (List.length (split_space (toLowerCase t))))))
    by (change 0 with (inject_Z 0); rewrite <- Zlt_Qlt; lia).
  assert (Ha0 : 0 < inject_Z (Z.of_nat (List.length (x :: xs))))
    by (change 0 with (inject_Z 0); rewrite <- Zlt_Qlt; simpl; lia).
  split.
  - apply Qlt_shift_div_l; [exact Hb0|]. lra.
  - apply ratio_bounds; [exact Hab|lia].
Qed.

(** ** When [analogicalReasoning] and [reason] throw *)

Lemma recall_episodic (m : Memory) (q : jsval) (t : string) (now : Z) :
  (fst (recall m q t now)).(episodic) = m.(episodic).
Proof. destruct (recall_keeps_stores m q t now) as (w & a & l & ->). reflexivity. Qed.

(** [analogicalReasoning(query, chain)] throws exactly when some episode's
    event has relevance above 0.5 to the query: the episodic entries
    [recall] returns have no [content], and [findAnalogy] calls
    [toLowerCase] on it. *)
Theorem analogicalReasoning_throws_iff (m : Memory) (q : string) (ch : chain) (now : Z) :
  (exists msg, analogicalReasoning m q ch now = Err msg) <->
  exists ep, In ep m.(episodic) /\ 1#2 < calculateRelevance (JStr q) ep.(ep_event).
Proof.
  unfold analogicalReasoning.
  assert (Hs : snd (recall m (JStr q) "episodic" now)
               = sort_by relevance_cmp (searchEpisodic m (JStr q))) by reflexivity.
  destruct (recall m (JStr q) "episodic" now) as [m' rs]. cbn [snd] in Hs. subst rs.
  assert (Hiff : (exists r, In r (sort_by relevance_cmp (searchEpisodic m (JStr q))) /\
                            Qltb (1#2) r.(r_relevance) = true) <->
                 exists ep, In ep m.(episodic) /\ 1#2 < calculateRelevance (JStr q) ep.(ep_event)).
  { split.
    - intros [r [Hr Hp]]. apply In_sort_by in Hr. unfold searchEpisodic in Hr.
      apply filter_In in Hr as [Hr _]. apply in_map_iff in Hr as [ep [<- Hep]].
      exists ep. split; [exact Hep|]. apply Qltb_spec, Hp.
    - intros [ep [Hep Hrel]].
      exists (mkRecalled ep.(ep_id) JUndef ep.(ep_importance)
                (calculateRelevance (JStr q) ep.(ep_event)) "episodic").
      split; [|apply Qltb_spec; exact Hrel].
      apply In_sort_by. unfold searchEpisodic. apply filter_In. split.
      + apply in_map_iff. exists ep. auto.
      + apply Qltb_spec. cbn [r_relevance]. lra. }
  rewrite <- Hiff. clear Hiff.
  destruct (filter (fun r => Qltb (1#2) r.(r_relevance))
                   (sort_by relevance_cmp (searchEpisodic m (JStr q)))) as [|r rs'] eqn:Ef.
  - cbn [firstn analogy_loop]. split; [intros [msg H]; discriminate H|].
    intros [r [Hr Hp]].
    assert (H : In r (filter (fun r => Qltb (1#2) r.(r_relevance))
                             (sort_by relevance_cmp (searchEpisodic m (JStr q)))))
      by (apply filter_In; auto).
    rewrite Ef in H. destruct H.
  - assert (Hr : In r (filter (fun r => Qltb (1#2) r.(r_relevance))
                              (sort_by relevance_cmp (searchEpisodic m (JStr q)))))
      by (rewrite Ef; left; reflexivity).
    apply filter_In in Hr as [Hr Hp].
    assert (Hc : r.(r_content) = JUndef).
    { apply In_sort_by in Hr. unfold searchEpisodic in Hr. apply filter_In in Hr as [Hr _].
      apply in_map_iff in Hr as [ep [<- _]]. reflexivity. }
    cbn [firstn analogy_loop]. rewrite Hc. cbn [findAnalogy].
    split; [intros _; exists r; auto|intros _; eexists; reflexivity].
Qed.

Lemma analogicalReasoning_throws_iff_witness :
  exists msg, analogicalReasoning episode_state "sunny day" (mkChain "sunny day" 0 [] [] 0 0 []) 0
              = Err msg.
Proof.
  apply (analogicalReasoning_throws_iff episode_state "sunny day" (mkChain "sunny day" 0 [] [] 0 0 []) 0).
  exists (mkEpisode (JStr "sunny day") 0 (getCurrentContext (new_Memory default_config) 0)
            (mkEmotions 0 0 0 0) (1#2) "id0").
  split; [vm_compute; left; reflexivity|vm_compute; reflexivity].
Defined.

Lemma handlers_episodic :
  Forall (fun '(_, _, h) => forall m c now, (fst (h m c now)).(episodic) = m.(episodic))
    handlers.
Proof.
  repeat constructor; cbv beta iota; intros m c now;
    unfold explainConcept, provideInstructions, explainReason, provideTimeInfo;
    match goal with |- context [recall ?m0 ?q0 ?t0 ?n0] =>
      pose proof (recall_episodic m0 q0 t0 n0) as H; revert H;
      destruct (recall m0 q0 t0 n0) as [m' [|r rs]]; cbn [fst]; auto
    end.
Qed.

Lemma patternMatching_episodic (m : Memory) (q : string) (ch : chain) (now : Z) :
  (fst (patternMatching m q ch now)).(episodic) = m.(episodic).
Proof.
  unfold patternMatching. pose proof handlers_episodic as Hh. revert Hh.
  generalize handlers as hs.
  induction hs as [|[[src re] h] hs IH]; intro Hh; cbn [patternMatching_aux]; [reflexivity|].
  inversion Hh as [|? ? Hx Hrest]; subst. cbv beta iota in Hx.
  destruct (exec re q) as [[|cap caps]|]; [apply IH, Hrest| |apply IH, Hrest].
  pose proof (Hx m cap now) as He. revert He.
  destruct (h m cap now) as [m' [content conf]]. cbn [fst]. auto.
Qed.

(** When every rule template is plain ([plain_template]: no regular
    expression metacharacter in its literal text, so [matchesRule] cannot
    throw), [reason(query)] throws exactly when some episode in the memory
    has relevance above 0.5 to the query: neither the memory recall nor
    the pattern handlers change the episodes, and the throw comes from the
    analogical step. *)
Theorem reason_throws_iff (e : engine) (q : string) (D : nat) (now : Z) :
  forallb (fun '(_, r) => forallb plain_template r.(pattern)) e.(rules) = true ->
  (exists msg, reason e q D now = Err msg) <->
  exists ep, In ep e.(memory).(episodic) /\ 1#2 < calculateRelevance (JStr q) ep.(ep_event).
Proof.
  intros _. unfold reason.
  pose proof (recall_episodic (memory e) (JStr q) "all" now) as Hm. revert Hm.
  destruct (recall (memory e) (JStr q) "all" now) as [m mr]. cbn [fst]. intro Hm.
  match goal with |- context [applyRules ?a ?b ?c ?d ?f] =>
    destruct (applyRules a b c d f) as [ch3 rs] end.
  pose proof (patternMatching_episodic m q ch3 now) as H4. revert H4.
  destruct (patternMatching m q ch3 now) as [m4 ch4]. cbn [fst]. intro H4.
  rewrite <- Hm, <- H4, <- (analogicalReasoning_throws_iff m4 q ch4 now).
  destruct (analogicalReasoning m4 q ch4 now) as [[m5 ch5]|err].
  - split; intros [msg H]; discriminate H.
  - split; intros _; eexists; reflexivity.
Qed.

Lemma reason_throws_iff_witness :
  exists msg, reason (new_ReasoningEngine episode_state) "sunny day" 3 0 = Err msg.
Proof.
  apply (reason_throws_iff (new_ReasoningEngine episode_state) "sunny day" 3 0
           ltac:(vm_compute; reflexivity)).
  exists (mkEpisode (JStr "sunny day") 0 (getCurrentContext (new_Memory default_config) 0)
            (mkEmotions 0 0 0 0) (1#2) "id0").
  split; [vm_compute; left; reflexivity|vm_compute; reflexivity].
Defined.

(** ** The history and the rules after [reason] *)

Lemma history_push {A} (h : list A) (c : A) : (List.length h <= 100)%nat ->
  (if (100 <? List.length (h ++ [c]))%nat then tl (h ++ [c]) else (h ++ [c])%list)
    = last_n 100 (h ++ [c]).
Proof.
  intro H. unfold last_n. rewrite length_app. simpl.
  destruct (Nat.ltb_spec 100 (List.length h + 1)).
  - replace (List.length h + 1 - 100)%nat with 1%nat by lia.
    destruct (h ++ [c])%list; reflexivity.
  - replace (List.length h + 1 - 100)%nat with 0%nat by lia. reflexivity.
Qed.

(** A successful [reason] call on a history of at most 100 traces appends
    the returned trace and keeps the last 100: the history stays within
    100 entries, ends with the returned trace, and the facts are
    unchanged. *)
Theorem reason_history_bounded (e : engine) (q : string) (D : nat) (now : Z) :
  (List.length e.(reasoningHistory) <= 100)%nat ->
  match reason e q D now with
  | Ok (e', ch) =>
      e'.(reasoningHistory) = last_n 100 (e.(reasoningHistory) ++ [ch]) /\
      (List.length e'.(reasoningHistory) <= 100)%nat /\ e'.(facts) = e.(facts)
  | Err _ => True
  end.
Proof.
  intro Hh. unfold reason.
  destruct (recall (memory e) (JStr q) "all" now) as [m mr].
  match goal with |- context [applyRules ?a ?b ?c ?d ?f] =>
    destruct (applyRules a b c d f) as [ch3 rs] end.
  destruct (patternMatching m q ch3 now) as [m4 ch4].
  destruct (analogicalReasoning m4 q ch4 now) as [[m5 ch5]|err]; [|exact I].
  cbv beta iota zeta delta [reasoningHistory facts].
  rewrite history_push by exact Hh. split; [reflexivity|]. split; [|reflexivity].
  unfold last_n. rewrite length_skipn. lia.
Qed.

Lemma reason_history_bounded_witness :
  match reason apple_engine "apple" 3 0 with
  | Ok (e', ch) =>
      e'.(reasoningHistory) = last_n 100 (apple_engine.(reasoningHistory) ++ [ch]) /\
      (List.length e'.(reasoningHistory) <= 100)%nat /\ e'.(facts) = apple_engine.(facts)
  | Err _ => True
  end.
Proof.
  apply (reason_history_bounded apple_engine "apple" 3 0). vm_compute. lia.
Defined.

Lemma rule_bumped_refl (x : string * rule) : rule_bumped x x.
Proof. unfold rule_bumped. repeat split; auto. Qed.

Lemma Forall2_rule_bumped_refl (l : list (string * rule)) : Forall2 rule_bumped l l.
Proof. induction l; constructor; [apply rule_bumped_refl|assumption]. Qed.

Lemma Forall2_rule_bumped_set (orig us : list (string * rule)) (name : string) (r : rule) :
  Forall2 rule_bumped orig us -> map_get name us = Some r ->
  Forall2 rule_bumped orig
    (map_set name (mkRule r.(rule_name) r.(pattern) r.(conclusion) r.(rule_confidence)
                          (S r.(usageCount))) us).
Proof.
  intro H. induction H as [|x [k' r'] orig us Hxy H IH]; intro Hget; [discriminate|].
  cbn [map_get map_set] in *. destruct (String.eqb name k').
  - injection Hget as <-. constructor; [|exact H].
    unfold rule_bumped in *. cbn [fst snd rule_name pattern conclusion rule_confidence
                                  usageCount] in *.
    destruct Hxy as (H1 & H2 & H3 & H4 & H5 & H6). repeat split; auto.
  - constructor; [exact Hxy|]. apply IH, Hget.
Qed.

Lemma Forall2_bump_usage (orig us : list (string * rule)) (name : string) :
  Forall2 rule_bumped orig us -> Forall2 rule_bumped orig (bump_usage name us).
Proof.
  intro H. unfold bump_usage. destruct (map_get name us) as [r|] eqn:E; [|exact H].
  apply Forall2_rule_bumped_set; assumption.
Qed.

Lemma applyRules_bumped (orig : list (string * rule)) (fuel : nat) rs q st (d D : nat) :
  Forall2 rule_bumped orig (snd st) ->
  Forall2 rule_bumped orig (snd (applyRules_fuel fuel rs q st d D)).
Proof.
  revert q st d. induction fuel as [|fuel IH]; intros q st d Hst; cbn [applyRules_fuel];
    [exact Hst|].
  destruct (D <=? d)%nat; [exact Hst|].
  apply (fold_preserve (fun st => Forall2 rule_bumped orig (snd st))); [|exact Hst].
  intros [ch us] [name r] Hp. cbv beta iota.
  destruct (matchesRule q r); [|exact Hp].
  destruct (applyRule q r) as [[content conf]|]; [|exact Hp].
  apply IH. cbn [snd]. apply Forall2_bump_usage, Hp.
Qed.

(** [reason] neither adds, removes, reorders nor edits rules: afterwards
    each rule has the same name, pattern, conclusion and confidence as
    before, and a usage count at least as large. *)
Theorem reason_rules_only_counted (e : engine) (q : string) (D : nat) (now : Z) :
  match reason e q D now with
  | Ok (e', _) => Forall2 rule_bumped e.(rules) e'.(rules)
  | Err _ => True
  end.
Proof.
  unfold reason.
  destruct (recall (memory e) (JStr q) "all" now) as [m mr].
  match goal with |- context [applyRules ?a ?b ?c ?d ?f] =>
    pose proof (applyRules_bumped (rules e) (S (D - 0)) a b c d f) as Hb;
    unfold applyRules; destruct (applyRules_fuel (S (D - 0)) a b c d f) as [ch3 rs] end.
  cbn [snd] in Hb. specialize (Hb (Forall2_rule_bumped_refl _)).
  destruct (patternMatching m q ch3 now) as [m4 ch4].
  destruct (analogicalReasoning m4 q ch4 now) as [[m5 ch5]|err]; [|exact I].
  exact Hb.
Qed.

(** ** The conclusions of a trace are distinct *)

Lemma jsval_eqb_refl (v : jsval) : jsval_eqb v v = true.
Proof. destruct v; simpl; auto using String.eqb_refl, Z.eqb_refl. Qed.

Lemma not_existsb_jsval (c : jsval) (l : list jsval) :
  existsb (jsval_eqb c) l = false -> ~ In c l.
Proof.
  intros H Hin. apply not_true_iff_false in H. apply H, existsb_exists.
  exists c. split; [exact Hin|apply jsval_eqb_refl].
Qed.

Lemma NoDup_app_last {A} (l : list A) (x : A) : NoDup l -> ~ In x l -> NoDup (l ++ [x]).
Proof.
  intros H Hx. apply (Permutation_NoDup (Permutation_cons_append l x)). constructor; assumption.
Qed.

Lemma nodup_push_max (ch : chain) (c : jsval) (v : Q) :
  NoDup ch.(conclusions) -> ~ In c ch.(conclusions) -> NoDup (push_max ch c v).(conclusions).
Proof. intros H Hc. apply NoDup_app_last; assumption. Qed.

Lemma nodup_applyRules (fuel : nat) rs q st (d D : nat) :
  NoDup (fst st).(conclusions) -> NoDup (fst (applyRules_fuel fuel rs q st d D)).(conclusions).
Proof.
  revert q st d. induction fuel as [|fuel IH]; intros q st d Hst; cbn [applyRules_fuel];
    [exact Hst|].
  destruct (D <=? d)%nat; [exact Hst|].
  apply (fold_preserve (fun st => NoDup (fst st).(conclusions))); [|exact Hst].
  intros [ch us] [name r] Hp. cbv beta iota.
  destruct (matchesRule q r); [|exact Hp].
  destruct (applyRule q r) as [[content conf]|]; [|exact Hp].
  apply IH. cbn [fst].
  destruct (existsb _ _) eqn:E; [exact Hp|].
  apply nodup_push_max; [exact Hp|apply not_existsb_jsval, E].
Qed.

Lemma nodup_patternMatching (m : Memory) (q : string) (ch : chain) (now : Z) :
  NoDup ch.(conclusions) -> NoDup (snd (patternMatching m q ch now)).(conclusions).
Proof.
  unfold patternMatching. generalize handlers as hs.
  induction hs as [|[[src re] h] hs IH]; intro Hch; cbn [patternMatching_aux]; [exact Hch|].
  destruct (exec re q) as [[|cap caps]|]; [apply IH, Hch| |apply IH, Hch].
  destruct (h m cap now) as [m' [content conf]]. cbn [snd].
  destruct (existsb _ _) eqn:E; [exact Hch|].
  apply nodup_push_max; [exact Hch|apply not_existsb_jsval, E].
Qed.

Lemma substring_self (s : string) : substring 0 (String.length s) s = s.
Proof. induction s as [|c s IH]; simpl; [reflexivity|]. rewrite IH. reflexivity. Qed.

Lemma substring_app (p s : string) : substring (String.length p) (String.length s) (p ++ s) = s.
Proof. induction p as [|c p IH]; simpl; [apply substring_self|exact IH]. Qed.

(** A string includes each of its suffixes. *)
Lemma includes_suffix (p a : string) : includes (p ++ a) a = true.
Proof.
  unfold includes. destruct (index 0 a (p ++ a)) eqn:E; [reflexivity|].
  exfalso. destruct a as [|c a'].
  - destruct (p ++ "")%string; discriminate E.
  - apply (index_correct3 0 (String.length p) (String c a') (p ++ String c a') E);
      [discriminate|lia|apply substring_app].
Qed.

Lemma some_includes_false (cs : list jsval) (a : string) :
  some_includes cs a = Ok false -> forall c, In (JStr c) cs -> includes c a = false.
Proof.
  induction cs as [|v cs IH]; intros H c Hin; [destruct Hin|].
  destruct v as [s| | | |]; cbn [some_includes] in H; try discriminate H.
  destruct (includes s a) eqn:E; [discriminate H|].
  destruct Hin as [Hin|Hin]; [injection Hin as <-; exact E|exact (IH H c Hin)].
Qed.

Lemma nodup_analogy (q : string) (ms : list recalled) (ch ch' : chain) :
  NoDup ch.(conclusions) -> analogy_loop q ms ch = Ok ch' -> NoDup ch'.(conclusions).
Proof.
  revert ch. induction ms as [|mem ms IH]; intros ch Hch; cbn [analogy_loop].
  - intro H. injection H as <-. exact Hch.
  - destruct (findAnalogy q (r_content mem)) as [[[a conf]|]|err]; [|apply IH, Hch|discriminate].
    destruct (some_includes _ a) as [[|]|err] eqn:E; [| |discriminate].
    + apply IH, Hch.
    + apply IH, nodup_push_max; [exact Hch|]. intro Hin.
      pose proof (some_includes_false _ _ E _ Hin) as Hf.
      rewrite includes_suffix in Hf. discriminate Hf.
Qed.

(** Every trace [reason] returns lists each conclusion once: rule,
    pattern and analogy steps only add a conclusion not yet present (an
    analogy conclusion ["Based on analogy: " ++ a] contains [a], so once
    added it blocks itself). *)
Theorem reason_conclusions_distinct (e : engine) (q : string) (D : nat) (now : Z) :
  match reason e q D now with
  | Ok (_, ch) => NoDup ch.(conclusions)
  | Err _ => True
  end.
Proof.
  unfold reason.
  set (ch1 := match findRelevantFacts e q with [] => _ | _ :: _ => _ end).
  assert (H1 : NoDup ch1.(conclusions)).
  { unfold ch1. destruct (findRelevantFacts e q); simpl; repeat constructor. intros []. }
  cbv zeta.
  destruct (recall (memory e) (JStr q) "all" now) as [m mr].
  set (ch2 := match mr with [] => ch1 | _ :: _ => _ end).
  assert (H2 : NoDup ch2.(conclusions)).
  { unfold ch2. destruct mr as [|best bs]; [exact H1|].
    destruct (conclusions (push_step ch1 _)) eqn:Ec; [|exact H1].
    cbn [push_set conclusions]. rewrite Ec. repeat constructor. intros []. }
  cbv zeta.
  destruct (applyRules (rules e) q (ch2, rules e) 0 D) as [ch3 rs] eqn:Ea.
  assert (H3 : NoDup ch3.(conclusions)).
  { pose proof (nodup_applyRules (S (D - 0)) (rules e) q (ch2, rules e) 0 D H2) as H.
    unfold applyRules in Ea. rewrite Ea in H. exact H. }
  destruct (patternMatching m q ch3 now) as [m4 ch4] eqn:Ep.
  assert (H4 : NoDup ch4.(conclusions)).
  { pose proof (nodup_patternMatching m q ch3 now H3) as H. rewrite Ep in H. exact H. }
  destruct (analogicalReasoning m4 q ch4 now) as [[m5 ch5]|err] eqn:Ean; [|exact I].
  unfold analogicalReasoning in Ean.
  destruct (recall m4 (JStr q) "episodic" now) as [m6 rs6].
  destruct (analogy_loop q _ ch4) as [ch6|err] eqn:El; [|discriminate].
  injection Ean as _ <-. exact (nodup_analogy _ _ _ _ H4 El).
Qed.

(* ================================================================== *)
(** * Which entries [manageLongTermCapacity] evicts *)

(** The sort is also in descending order of [key] when the comparator
    equals [key b - key a] as a number ([==]) rather than as a term. *)
Section SortFactsQ.
Context {A : Type} (cmp : A -> A -> Q) (key : A -> Q).
Hypothesis cmp_key : forall a b, cmp a b == key b - key a.

Lemma insert_by_sorted_Q (x : A) (l : list A) :
  Sorted (fun a b => key b <= key a) l ->
  Sorted (fun a b => key b <= key a) (insert_by cmp x l).
Proof.
  induction l as [|y l IH]; simpl; intro Hs.
  - repeat constructor.
  - destruct (Qltb 0 (cmp x y)) eqn:E.
    + apply Qltb_spec in E. rewrite cmp_key in E.
      apply Sorted_inv in Hs as [Hl Hhd].
      constructor; [apply IH; exact Hl|].
      destruct l as [|z l]; simpl.
      * constructor. lra.
      * destruct (Qltb 0 (cmp x z)).
        -- constructor. inversion Hhd; assumption.
        -- constructor. lra.
    + apply Qltb_false in E. rewrite cmp_key in E.
      constructor; [exact Hs|]. constructor. lra.
Qed.

Lemma sort_by_sorted_Q (l : list A) : Sorted (fun a b => key b <= key a) (sort_by cmp l).
Proof.
  induction l as [|x l IH]; simpl; [constructor|].
  apply insert_by_sorted_Q. exact IH.
Qed.
End SortFactsQ.

Lemma capacity_cmp_key (a b : string * ltItem) :
  capacity_cmp a b == - capacity_score (snd b) - - capacity_score (snd a).
Proof.
  unfold capacity_cmp, capacity_score. unfold Z.sub. rewrite inject_Z_plus, inject_Z_opp. ring.
Qed.

Lemma In_map_delete {V} (k : string) (l : list (string * V)) (e : string * V) :
  NoDup (map fst l) -> (In e (map_delete k l) <-> In e l /\ fst e <> k).
Proof.
  induction l as [|[k0 v0] l IH]; simpl; intro Hnd; [tauto|].
  inversion Hnd as [|? ? Hni Hnd']; subst.
  destruct (String.eqb_spec k k0) as [<-|Hne].
  - split.
    + intro H. split; [right; exact H|]. intro He. apply Hni. rewrite <- He. apply in_map, H.
    + intros [[<-|H] Hk]; [exfalso; apply Hk; reflexivity|exact H].
  - simpl. rewrite IH by exact Hnd'. split.
    + intros [<-|[H Hk]]; [split; [left; reflexivity|simpl; congruence]|tauto].
    + intros [[<-|H] Hk]; [left; reflexivity|right; tauto].
Qed.

Lemma In_fold_delete {V W} (ks : list (string * W)) (l : list (string * V)) (e : string * V) :
  NoDup (map fst l) ->
  (In e (fold_left (fun l '(k, _) => map_delete k l) ks l) <->
   In e l /\ ~ In (fst e) (map fst ks)).
Proof.
  revert l. induction ks as [|[k w] ks IH]; intros l Hnd; simpl.
  - tauto.
  - rewrite IH by (apply map_delete_nodup, Hnd). rewrite In_map_delete by exact Hnd.
    split.
    + intros [[H1 H2] H3]. split; [exact H1|].
      intros [H|H]; [apply H2; symmetry; exact H|exact (H3 H)].
    + intros [H1 H2]. split; [split; [exact H1|]|].
      * intro H. apply H2. left. symmetry. exact H.
      * intro H. apply H2. right. exact H.
Qed.

(** Over a capacity [>= 0], [manageLongTermCapacity] cuts the long-term
    store to exactly its capacity rounded up, deletes only, and every entry it deletes scores
    no higher than any entry it keeps, the score being importance plus
    0.1 per access plus 0.001 per millisecond of last-access time. *)
Theorem manage_evicts_lowest (m : Memory) :
  NoDup (map fst m.(longTerm)) -> 0 <= m.(longTermCapacity) ->
  m.(longTermCapacity) < len_Q m.(longTerm) ->
  let lt' := (manageLongTermCapacity m).(longTerm) in
  Z.of_nat (List.length lt') = Qceiling m.(longTermCapacity) /\ incl lt' m.(longTerm) /\
  (forall e k, In e m.(longTerm) -> ~ In e lt' -> In k lt' ->
     capacity_score (snd e) <= capacity_score (snd k)).
Proof.
  intros Hnd H0 Hgt. cbv zeta.
  destruct (manage_over m H0 Hgt) as (n & -> & Hn & Hc).
  set (sorted := sort_by capacity_cmp m.(longTerm)).
  set (ks := firstn n sorted).
  destruct (fold_delete_key ks m) as (Hlt & _). rewrite Hlt.
  assert (Hperm : Permutation m.(longTerm) sorted) by apply sort_by_perm.
  assert (Hks_incl : incl ks m.(longTerm))
    by (intros x Hx; apply (Permutation_in _ (Permutation_sym Hperm)), (incl_firstn' _ _ _ Hx)).
  assert (Hkl : List.length ks = n)
    by (unfold ks; apply firstn_length_le; rewrite <- (Permutation_length Hperm); lia).
  assert (Hndks : NoDup (map fst ks)).
  { unfold ks. rewrite <- firstn_map. apply NoDup_firstn'.
    eapply Permutation_NoDup; [apply Permutation_map, Hperm|exact Hnd]. }
  destruct (fold_delete_length ks m.(longTerm) Hnd Hndks) as [_ Hlen].
  { intros x Hx. apply in_map_iff in Hx as [p [<- Hp]]. apply in_map, Hks_incl, Hp. }
  assert (HS : StronglySorted (fun a b => - capacity_score (snd b) <= - capacity_score (snd a))
                              sorted).
  { apply Sorted_StronglySorted; [intros x y z H1 H2; lra|].
    apply (sort_by_sorted_Q capacity_cmp (fun x => - capacity_score (snd x))).
    apply capacity_cmp_key. }
  split; [lia|]. split.
  - intros x Hx. apply In_fold_delete in Hx as [Hx _]; [exact Hx|exact Hnd].
  - intros e k He Hne Hk.
    apply In_fold_delete in Hk as [Hk Hkks]; [|exact Hnd].
    assert (Hein : In e ks).
    { destruct (in_dec string_dec (fst e) (map fst ks)) as [Hin|Hnin].
      - apply in_map_iff in Hin as [[k' v'] [Hk' Hin]]. cbn [fst] in Hk'.
        assert (G1 : map_get k' m.(longTerm) = Some v')
          by (apply In_map_get; [exact Hnd|apply Hks_incl, Hin]).
        assert (G2 : map_get (fst e) m.(longTerm) = Some (snd e))
          by (apply In_map_get; [exact Hnd|destruct e; exact He]).
        rewrite <- Hk', G1 in G2. injection G2 as G2.
        destruct e as [ke ve]. cbn [fst snd] in *. subst k' v'. exact Hin.
      - exfalso. apply Hne. apply In_fold_delete; [exact Hnd|]. split; assumption. }
    assert (Hkin : In k (skipn n sorted)).
    { apply (Permutation_in _ Hperm) in Hk. rewrite <- (firstn_skipn n sorted) in Hk.
      apply in_app_or in Hk as [Hk'|Hk']; [|exact Hk'].
      exfalso. apply Hkks. apply in_map, Hk'. }
    pose proof (StronglySorted_firstn_skipn _ n sorted e k HS Hein Hkin) as H.
    cbv beta in H. lra.
Qed.

Lemma manage_evicts_lowest_witness :
  let lt' := (manageLongTermCapacity over_capacity_state).(longTerm) in
  Z.of_nat (List.length lt') = Qceiling over_capacity_state.(longTermCapacity) /\
  incl lt' over_capacity_state.(longTerm) /\
  (forall e k, In e over_capacity_state.(longTerm) -> ~ In e lt' -> In k lt' ->
     capacity_score (snd e) <= capacity_score (snd k)).
Proof.
  apply manage_evicts_lowest.
  - vm_compute. repeat constructor; simpl; intuition discriminate.
  - vm_compute. discriminate.
  - vm_compute. reflexivity.
Defined.
